(** * ModupeC: download orchestration and progress streaming

    A shallow embedding of the server side of the video downloader:
    - [src/utils/cookies.ts]: credential resolver and authenticated
      execution wrapper;
    - [src/pages/api/download-progress.ts]: format decision, progress
      parser and the server-sent-event session;
    - the stream-download handler (cleanup of the merged staging file);
    - the download-file handler (path check and cleanup).

    Conventions of the embedding.
    - A JavaScript string is a [string] whose characters are code units
      below 256.
    - A JavaScript number is a binary64 value, kept as the rational it
      denotes ([Q], in lowest terms): every arithmetic operation of the
      source is the exact operation followed by the rounding [round64]
      to 53 significant bits, ties to even. The exponent is not
      bounded: overflow to Infinity, gradual underflow, NaN and the
      negative zero, which the parsers only reach on decimal texts of
      more than 300 digits, are outside the model.
    - Callbacks of the event loop are steps of a transition function on
      an explicit state; what the handler writes to the response is
      collected in a log. *)

From Stdlib Require Import ZArith QArith Qround Qabs Qpower String Ascii List Sorted Lia Lqa.
From Stdlib Require Floats Uint63.
From stdpp Require Import base decidable gmap strings pretty.
Import ListNotations.

Local Open Scope string_scope.
Local Open Scope Z_scope.

#[local] Arguments String.append !_ _ / : simpl nomatch.

(** ** Characters and strings *)

Module JsString.

Definition code (c : ascii) : N := N_of_ascii c.

(** [\d] *)
Definition is_digit (c : ascii) : bool :=
  ((48 <=? code c) && (code c <=? 57))%N.

(** [\s] on code units below 256: TAB, LF, VT, FF, CR, SP, NBSP. *)
Definition is_space (c : ascii) : bool :=
  ((9 <=? code c) && (code c <=? 13) || (code c =? 32) || (code c =? 160))%N.

Definition is_upper (c : ascii) : bool :=
  ((65 <=? code c) && (code c <=? 90))%N.

Definition is_lower (c : ascii) : bool :=
  ((97 <=? code c) && (code c <=? 122))%N.

(** [toLowerCase] and [toUpperCase] on the ASCII letters, the only
    letters the patterns of the source mention. *)
Definition lower (c : ascii) : ascii :=
  if is_upper c then ascii_of_N (code c + 32) else c.

Definition upper (c : ascii) : ascii :=
  if is_lower c then ascii_of_N (code c - 32) else c.

Fixpoint toLowerCase (s : string) : string :=
  match s with
  | EmptyString => EmptyString
  | String c s' => String (lower c) (toLowerCase s')
  end.

(** [s.startsWith(p)] *)
Fixpoint startsWith (s p : string) : bool :=
  match p, s with
  | EmptyString, _ => true
  | String a p', String b s' => if Ascii.eqb a b then startsWith s' p' else false
  | String _ _, EmptyString => false
  end.

(** [s.endsWith(p)] *)
Definition endsWith (s p : string) : bool :=
  let n := String.length s in
  let m := String.length p in
  (m <=? n)%nat && String.eqb (substring (n - m) m s) p.

(** [s.includes(p)] *)
Fixpoint includes (s p : string) : bool :=
  startsWith s p ||
  match s with
  | EmptyString => false
  | String _ s' => includes s' p
  end.

(** The longest prefix of characters satisfying [p], and the rest. *)
Fixpoint span (p : ascii -> bool) (s : string) : string * string :=
  match s with
  | EmptyString => (EmptyString, EmptyString)
  | String c s' =>
      if p c then let (a, b) := span p s' in (String c a, b)
      else (EmptyString, s)
  end.

(** The first [n] characters. *)
Fixpoint take (n : nat) (s : string) : string :=
  match n, s with
  | S n', String c s' => String c (take n' s')
  | _, _ => EmptyString
  end.

End JsString.

(** ** Regular expressions

    The patterns of the source, as syntax, and a backtracking matcher
    with the priorities of ECMAScript: greedy quantifiers, left
    alternative first, leftmost start position first. Repetition is
    only needed over character classes. *)

Module Regex.
Import JsString.

Inductive regex : Type :=
| RChar (c : ascii)
| RClass (p : ascii -> bool)
| RSeq (r1 r2 : regex)
| RAlt (r1 r2 : regex)
| ROpt (r : regex)
| RStar (p : ascii -> bool)
| RGroup (n : nat) (r : regex).

Definition RPlus (p : ascii -> bool) : regex := RSeq (RClass p) (RStar p).

Fixpoint RLit (s : string) : regex :=
  match s with
  | EmptyString => ROpt (RClass (fun _ => false))
  | String c EmptyString => RChar c
  | String c s' => RSeq (RChar c) (RLit s')
  end.

(** Captures: group number and captured text, most recent first. *)
Definition captures : Type := list (nat * string).

Fixpoint group (n : nat) (cs : captures) : option string :=
  match cs with
  | [] => None
  | (m, s) :: cs' => if Nat.eqb n m then Some s else group n cs'
  end.

(** With the [i] flag two characters match when their canonical
    (upper-case) forms agree. *)
Definition chr_eq (ci : bool) (a b : ascii) : bool :=
  if ci then Ascii.eqb (upper a) (upper b) else Ascii.eqb a b.

Definition consumed (s s' : string) : string :=
  take (String.length s - String.length s') s.

Section Exec.
Context {A : Type}.
Variable ci : bool.

Fixpoint star (p : ascii -> bool) (s : string) (k : string -> option A)
  : option A :=
  match s with
  | String c s' =>
      if p c then
        match star p s' k with
        | Some x => Some x
        | None => k s
        end
      else k s
  | EmptyString => k s
  end.

Fixpoint exec (r : regex) (s : string) (cs : captures)
    (k : string -> captures -> option A) : option A :=
  match r with
  | RChar c =>
      match s with
      | String a s' => if chr_eq ci c a then k s' cs else None
      | EmptyString => None
      end
  | RClass p =>
      match s with
      | String a s' => if p a then k s' cs else None
      | EmptyString => None
      end
  | RSeq r1 r2 => exec r1 s cs (fun s1 cs1 => exec r2 s1 cs1 k)
  | RAlt r1 r2 =>
      match exec r1 s cs k with
      | Some x => Some x
      | None => exec r2 s cs k
      end
  | ROpt r1 =>
      match exec r1 s cs k with
      | Some x => Some x
      | None => k s cs
      end
  | RStar p => star p s (fun s' => k s' cs)
  | RGroup n r1 =>
      exec r1 s cs (fun s' cs' => k s' ((n, consumed s s') :: cs'))
  end.
End Exec.

(** A match anchored at the start of [s]. *)
Definition match_here (ci : bool) (r : regex) (s : string) : option captures :=
  exec ci r s [] (fun _ cs => Some cs).

(** [s.match(r)] for a pattern without the [g] flag: the captures of
    the leftmost match, or [None] for [null]. *)
Fixpoint str_match (ci : bool) (r : regex) (s : string) : option captures :=
  match match_here ci r s with
  | Some cs => Some cs
  | None =>
      match s with
      | EmptyString => None
      | String _ s' => str_match ci r s'
      end
  end.

End Regex.

(** ** Numbers

    The finite binary64 values are the rationals [N * 2 ^ k] with
    [|N| < 2 ^ 53]. [round64] sends a rational to the nearest of them,
    a tie going to the one with the even [N], as IEEE 754 prescribes
    for the operations [+], [-], [*], [/] and as [parseFloat] and the
    reading of a decimal literal do. *)

Module JsNumber.
Import JsString.

Local Open Scope Q_scope.

Definition pow2 (k : Z) : Q := 2 ^ k.

(** The exponent [e] with [2 ^ e <= q < 2 ^ (e + 1)], for [0 < q]. *)
Definition ilog2 (q : Q) : Z :=
  let e0 := (Z.log2 (Qnum q) - Z.log2 (Zpos (Qden q)))%Z in
  if Qle_bool (pow2 e0) q then e0 else (e0 - 1)%Z.

(** The nearest integer, ties to even. *)
Definition rne (q : Q) : Z :=
  let f := Qfloor q in
  match Qcompare (q - inject_Z f) (1 # 2) with
  | Lt => f
  | Gt => (f + 1)%Z
  | Eq => if Z.even f then f else (f + 1)%Z
  end.

(** A positive rational rounded to 53 significant bits. *)
Definition round53 (q : Q) : Q :=
  let k := (ilog2 q - 52)%Z in
  inject_Z (rne (q * pow2 (- k))) * pow2 k.

Definition round64 (q : Q) : Q :=
  match Qnum q with
  | Z0 => 0
  | Zpos _ => Qred (round53 q)
  | Zneg _ => Qred (- round53 (- q))
  end.

(** [x + y], [x - y], [x * y] and [x / y] *)
Definition fadd (x y : Q) : Q := round64 (x + y).
Definition fsub (x y : Q) : Q := round64 (x - y).
Definition fmul (x y : Q) : Q := round64 (x * y).
Definition fdiv (x y : Q) : Q := round64 (x / y).

Definition digit_val (c : ascii) : Z := Z.of_N (code c) - 48.

(** The value of a run of decimal digits, most significant first. *)
Fixpoint digits_val (acc : Z) (s : string) : Z :=
  match s with
  | EmptyString => acc
  | String c s' => digits_val (10 * acc + digit_val c)%Z s'
  end.

(** [parseFloat] on the texts the patterns capture, [\d+ \.? \d*]: the
    integer digits, an optional point and the fraction digits, read as
    the binary64 value nearest to the decimal. *)
Definition parseFloat (s : string) : Q :=
  let (ip, rest) := span is_digit s in
  let fp := match rest with
            | String "."%char r => fst (span is_digit r)
            | _ => EmptyString
            end in
  round64 (digits_val 0 (ip ++ fp) # Z.to_pos (10 ^ Z.of_nat (String.length fp))).

(** [Math.floor] *)
Definition floor (x : Q) : Z := Qfloor x.

(** [Math.abs] *)
Definition abs (x : Q) : Q := Qabs x.

(** [x < y] and [x === y] *)
Definition ltb (x y : Q) : bool := if Qlt_le_dec x y then true else false.
Definition eqb (x y : Q) : bool := Qeq_bool x y.

End JsNumber.

(** ** The progress parser of download-progress.ts

    The source also matches a speed and an ETA pattern on each output;
    their results are not used and they are left out. *)

Module Progress.
Import JsString Regex JsNumber.

Local Open Scope Q_scope.

(** The events [sendEvent] writes to the response. *)
Inductive sse : Type :=
| EvStart (downloadId message : string)
| EvProgress (progress : Z)
| EvMerging (message : string)
| EvComplete (downloadId filename filePath message : string)
| EvError (message : string).

(** The pattern of [progressMatch]: the text [[download]], [\s+], the
    group 1 [\d+ \.? \d*] and a percent sign. *)
Definition progressRe : regex :=
  RSeq (RLit "[download]")
    (RSeq (RPlus is_space)
      (RSeq (RGroup 1 (RSeq (RPlus is_digit)
                         (RSeq (ROpt (RChar "."%char)) (RStar is_digit))))
         (RChar "%"%char))).

(** The pattern of [sizeMatch], with the [i] flag: the text [of], [\s+],
    an optional group 1 [~], the group 2 [\d+ \.? \d*] and the group 3
    [MiB|KiB|GiB]. *)
Definition sizeRe : regex :=
  RSeq (RLit "of")
    (RSeq (RPlus is_space)
      (RSeq (ROpt (RGroup 1 (RChar "~"%char)))
        (RSeq (RGroup 2 (RSeq (RPlus is_digit)
                           (RSeq (ROpt (RChar "."%char)) (RStar is_digit))))
           (RGroup 3 (RAlt (RLit "MiB") (RAlt (RLit "KiB") (RLit "GiB"))))))).

(** The variables the closure [parseProgress] shares with the stream
    handlers. *)
Record tracker : Type := Tracker {
  firstFileSize : Q;
  secondFileSize : Q;
  currentFileProgress : Q;
  firstFileComplete : bool;
  lastSentProgress : Q;
  accumulatedMB : Q
}.

Definition tracker0 : tracker :=
  {| firstFileSize := 0; secondFileSize := 0; currentFileProgress := 0;
     firstFileComplete := false; lastSentProgress := 0; accumulatedMB := 0 |}.

(** "Convert to MB": the unit is the lower-cased third group. *)
Definition sizeMB (unit : string) (sizeValue : Q) : Q :=
  if String.eqb unit "gib" then fmul sizeValue 1024
  else if String.eqb unit "kib" then fdiv sizeValue 1024
  else sizeValue.

(** What one output text yields when both patterns match: the
    percentage and the size in MB. *)
Definition parseLine (output : string) : option (Q * Q) :=
  match str_match false progressRe output, str_match true sizeRe output with
  | Some pm, Some sm =>
      match group 1 pm, group 2 sm, group 3 sm with
      | Some p, Some v, Some u =>
          Some (parseFloat p, sizeMB (toLowerCase u) (parseFloat v))
      | _, _, _ => None
      end
  | _, _ => None
  end.

(** "Detect when we switch to second file". The literal [0.1] is the
    binary64 value nearest to one tenth. *)
Definition observeSize (t : tracker) (size : Q) : tracker :=
  if eqb (firstFileSize t) 0 then
    {| firstFileSize := size; secondFileSize := secondFileSize t;
       currentFileProgress := currentFileProgress t;
       firstFileComplete := firstFileComplete t;
       lastSentProgress := lastSentProgress t;
       accumulatedMB := accumulatedMB t |}
  else if negb (firstFileComplete t)
          && ltb (round64 (1 # 10)) (abs (fsub size (firstFileSize t))) then
    {| firstFileSize := firstFileSize t; secondFileSize := size;
       currentFileProgress := currentFileProgress t;
       firstFileComplete := true;
       lastSentProgress := lastSentProgress t;
       accumulatedMB := firstFileSize t |}
  else t.

Definition setProgress (t : tracker) (progress : Q) : tracker :=
  {| firstFileSize := firstFileSize t; secondFileSize := secondFileSize t;
     currentFileProgress := progress;
     firstFileComplete := firstFileComplete t;
     lastSentProgress := lastSentProgress t;
     accumulatedMB := accumulatedMB t |}.

Definition totalSize (t : tracker) : Q :=
  if firstFileComplete t then fadd (firstFileSize t) (secondFileSize t)
  else firstFileSize t.

Definition totalDownloaded (t : tracker) : Q :=
  if firstFileComplete t
  then fadd (accumulatedMB t)
            (fdiv (fmul (secondFileSize t) (currentFileProgress t)) 100)
  else fdiv (fmul (firstFileSize t) (currentFileProgress t)) 100.

(** "Calculate total progress". *)
Definition combinedProgress (t : tracker) : Q :=
  if ltb 0 (totalSize t) then fmul (fdiv (totalDownloaded t) (totalSize t)) 100
  else 0.

(** "Send update for every 1% change". *)
Definition emit (t : tracker) : tracker * list sse :=
  let combined := combinedProgress t in
  let roundedProgress := floor combined in
  if (floor (lastSentProgress t) <? roundedProgress)%Z then
    ({| firstFileSize := firstFileSize t; secondFileSize := secondFileSize t;
        currentFileProgress := currentFileProgress t;
        firstFileComplete := firstFileComplete t;
        lastSentProgress := combined;
        accumulatedMB := accumulatedMB t |},
     [EvProgress roundedProgress])
  else (t, []).

(** The tracker once a percentage and a size have been read. *)
Definition update (t : tracker) (progress size : Q) : tracker :=
  setProgress (observeSize t size) progress.

Definition parseProgress (t : tracker) (output : string) : tracker * list sse :=
  match parseLine output with
  | Some (progress, size) => emit (update t progress size)
  | None => (t, [])
  end.

(** The parser run over the successive outputs of one download. *)
Fixpoint feed (t : tracker) (outputs : list string) : tracker * list sse :=
  match outputs with
  | [] => (t, [])
  | o :: os =>
      let (t1, e1) := parseProgress t o in
      let (t2, e2) := feed t1 os in
      (t2, (e1 ++ e2)%list)
  end.

End Progress.

(** ** Paths and the file system

    [path.normalize] and [path.join] belong to Node, not to the
    repository; they are modelled for POSIX paths after Node's
    documentation: empty and [.] segments are dropped, a [..] segment
    removes the segment before it (at the root of an absolute path it is
    dropped, at the start of a relative path it is kept), a trailing
    slash is kept. *)

Module Path.
Import JsString.

(** [s.split("/")] *)
Fixpoint split (s : string) : list string :=
  match s with
  | EmptyString => [EmptyString]
  | String c s' =>
      if Ascii.eqb c "/"%char then EmptyString :: split s'
      else match split s' with
           | seg :: segs => String c seg :: segs
           | [] => [String c EmptyString]
           end
  end.

(** [segs.join("/")] *)
Fixpoint unsplit (segs : list string) : string :=
  match segs with
  | [] => EmptyString
  | [seg] => seg
  | seg :: segs' => seg ++ "/" ++ unsplit segs'
  end.

(** The segments kept so far are in [acc], last one first. *)
Fixpoint normalizeSegments (allowAboveRoot : bool) (acc segs : list string)
  : list string :=
  match segs with
  | [] => rev acc
  | seg :: rest =>
      if String.eqb seg "" || String.eqb seg "." then
        normalizeSegments allowAboveRoot acc rest
      else if String.eqb seg ".." then
        match acc with
        | last :: acc' =>
            if String.eqb last ".." then
              normalizeSegments allowAboveRoot
                (if allowAboveRoot then seg :: acc else acc) rest
            else normalizeSegments allowAboveRoot acc' rest
        | [] =>
            normalizeSegments allowAboveRoot
              (if allowAboveRoot then [seg] else []) rest
        end
      else normalizeSegments allowAboveRoot (seg :: acc) rest
  end.

Definition normalize (path : string) : string :=
  if String.eqb path "" then "."
  else
    let isAbsolute := startsWith path "/" in
    let trailingSeparator := endsWith path "/" in
    let p := unsplit (normalizeSegments (negb isAbsolute) [] (split path)) in
    if String.eqb p "" then
      if isAbsolute then "/" else if trailingSeparator then "./" else "."
    else
      let p := if trailingSeparator then p ++ "/" else p in
      if isAbsolute then "/" ++ p else p.

(** [path.join(a, b)] *)
Definition join (a b : string) : string :=
  let joined :=
    if String.eqb a "" then b
    else if String.eqb b "" then a
    else a ++ "/" ++ b in
  if String.eqb joined "" then "." else normalize joined.

(** The file a path names for the process whose working directory is
    [cwd]. *)
Definition resolve (cwd path : string) : string :=
  if startsWith path "/" then normalize path else join cwd path.

End Path.

(** The files that exist, by resolved path. *)
Module Fs.

Definition existsSync (cwd : string) (files : gset string) (path : string) : bool :=
  bool_decide (Path.resolve cwd path ∈ files).

Definition unlink (cwd : string) (files : gset string) (path : string) : gset string :=
  files ∖ {[ Path.resolve cwd path ]}.

End Fs.

(** ** The credential resolver and the execution wrapper of cookies.ts *)

Module Cookies.
Import JsString.

Section Resolver.
Variable cwd : string.
Variable files : gset string.

Definition possiblePaths : list string :=
  [Path.join cwd "youtube-cookies.txt"; Path.join cwd "cookies.txt"].

Fixpoint firstExisting (paths : list string) : option string :=
  match paths with
  | [] => None
  | cookiePath :: rest =>
      if Fs.existsSync cwd files cookiePath then Some cookiePath
      else firstExisting rest
  end.

Definition getCookiesFilePath : option string := firstExisting possiblePaths.

(** [if (cookiesPath)]: [null] and the empty string are falsy. *)
Definition truthy (v : option string) : bool :=
  match v with
  | Some s => negb (String.eqb s "")
  | None => false
  end.

Definition getCookiesArgs (forceUseCookies : bool) : list string :=
  if negb forceUseCookies then []
  else
    let cookiesPath := getCookiesFilePath in
    match cookiesPath with
    | Some p => if truthy cookiesPath then ["--cookies"; p] else []
    | None => []
    end.

Definition hasCookiesFile : bool :=
  match getCookiesFilePath with
  | Some _ => true
  | None => false
  end.
End Resolver.

(** An argument handed to [spawn]; [None] stands for [undefined], which
    is what [args[args.length - 1]] is for an empty [args]. *)
Definition arg : Type := option string.

Definition lastArg (args : list string) : arg := List.last (map Some args) None.

(** "Insert cookies args before the last argument (URL)". *)
Definition argsWithCookies (args cookiesArgs : list string) : list arg :=
  (map Some (List.removelast args) ++ map Some cookiesArgs ++ [lastArg args])%list.

Inductive outcome (A : Type) : Type :=
| Resolved (a : A)
| Rejected (message : string).
Arguments Resolved {A} a.
Arguments Rejected {A} message.

Record ExecuteResult : Type := { output : string; usedCookies : bool }.

Section Wrapper.
(** The environment: its state, the files it holds, and what running
    a command to completion yields (the collected standard output,
    or the message of the error the promise is rejected with). *)
Variable World : Type.
Variable cwd : string.
Variable files : World -> gset string.
Variable run : string -> list arg -> World -> outcome string * World.

(** The wrapper's computations: the environment and the commands
    executed so far, oldest first. *)
Definition call : Type := (string * list arg)%type.
Definition M (A : Type) : Type :=
  World * list call -> outcome A * (World * list call).

Definition ret {A} (a : A) : M A := fun s => (Resolved a, s).
Definition throw {A} (message : string) : M A := fun s => (Rejected message, s).
Definition bind {A B} (m : M A) (f : A -> M B) : M B :=
  fun s => match m s with
           | (Resolved a, s') => f a s'
           | (Rejected e, s') => (Rejected e, s')
           end.
Definition try {A} (m : M A) (handler : string -> M A) : M A :=
  fun s => match m s with
           | (Resolved a, s') => (Resolved a, s')
           | (Rejected e, s') => handler e s'
           end.
Definition look {A} (f : gset string -> A) : M A :=
  fun s => (Resolved (f (files (fst s))), s).

Definition executeCommand (command : string) (args : list arg) : M string :=
  fun s => let (r, w) := run command args (fst s) in
           (r, (w, (snd s ++ [(command, args)])%list)).

Definition needsAuth (errorMsg : string) : bool :=
  includes errorMsg "Sign in" || includes errorMsg "bot"
  || includes errorMsg "not available".

Definition executeWithCookieRetry (command : string) (args : list string)
  : M ExecuteResult :=
  bind (look (hasCookiesFile cwd)) (fun cookiesExist =>
  if cookiesExist : bool then
    try
      (bind (look (fun fs => getCookiesArgs cwd fs true)) (fun cookiesArgs =>
       bind (executeCommand command (argsWithCookies args cookiesArgs)) (fun out =>
       ret {| output := out; usedCookies := true |})))
      (fun error =>
         try
           (bind (executeCommand command (map Some args)) (fun out =>
            ret {| output := out; usedCookies := false |}))
           (fun fallbackError => throw error))
  else
    try
      (bind (executeCommand command (map Some args)) (fun out =>
       ret {| output := out; usedCookies := false |}))
      (fun error =>
         bind (look (hasCookiesFile cwd)) (fun again =>
         if needsAuth error && again then
           bind (look (fun fs => getCookiesArgs cwd fs true)) (fun cookiesArgs =>
           bind (executeCommand command (argsWithCookies args cookiesArgs)) (fun out =>
           ret {| output := out; usedCookies := true |}))
         else throw error))).
End Wrapper.

End Cookies.

(** ** The format decision of download-progress.ts *)

Module Negotiation.
Import JsString.

(** A value of [req.query]. *)
Inductive queryValue : Type :=
| QAbsent
| QStr (s : string)
| QArr (l : list string).

(** [v === "true"] *)
Definition isTrue (v : queryValue) : bool :=
  match v with
  | QStr s => String.eqb s "true"
  | _ => false
  end.

(** A field of the parsed metadata. *)
Inductive field : Type :=
| FAbsent
| FNull
| FStr (s : string)
| FOther (truthy : bool).

Definition truthy (f : field) : bool :=
  match f with
  | FAbsent | FNull => false
  | FStr s => negb (String.eqb s "")
  | FOther b => b
  end.

Definition isStr (f : field) (s : string) : bool :=
  match f with
  | FStr s' => String.eqb s' s
  | _ => false
  end.

(** What the [try] block around the inspection call yields: the two
    codec fields, or an exception ([execSync] failed, [JSON.parse]
    threw, or the parsed value has no properties). *)
Inductive inspection : Type :=
| Inspected (acodec vcodec : field)
| InspectionFailed.

Record decision : Type := {
  hasAudio : bool;
  isAudio : bool;
  formatToDownload : string
}.

Definition decide (formatId : string) (isCombined : queryValue) (i : inspection)
  : decision :=
  let (hasAudio, isAudio) :=
    match i with
    | Inspected acodec vcodec =>
        (truthy acodec && negb (isStr acodec "none"),
         isStr vcodec "none" || negb (truthy vcodec))
    | InspectionFailed =>
        let isAudio := includes formatId "251" || includes formatId "140" in
        (isTrue isCombined || isAudio, isAudio)
    end in
  {| hasAudio := hasAudio; isAudio := isAudio;
     formatToDownload := if hasAudio then formatId else formatId ++ "+bestaudio" |}.

Definition extension (d : decision) : string :=
  if isAudio d then "webm" else "mp4".

Definition downloadArgs (d : decision) (ffmpeg : string) (cookiesArgs : list string)
    (tempFilePath url : string) : list string :=
  if isAudio d then
    (["--no-warnings"; "--newline"; "--progress"] ++ cookiesArgs ++
     ["-f"; formatToDownload d; "-o"; tempFilePath; url])%list
  else if hasAudio d then
    (["--no-warnings"; "--newline"; "--progress"; "--ffmpeg-location"; ffmpeg]
     ++ cookiesArgs ++
     ["-f"; formatToDownload d; "--remux-video"; "mp4";
      "--postprocessor-args"; "ffmpeg:-c:v copy -c:a copy -movflags +faststart";
      "-o"; tempFilePath; url])%list
  else
    (["--no-warnings"; "--newline"; "--progress"; "--ffmpeg-location"; ffmpeg]
     ++ cookiesArgs ++
     ["-f"; formatToDownload d; "--merge-output-format"; "mp4";
      "--postprocessor-args"; "ffmpeg:-c:v copy -c:a copy -movflags +faststart";
      "--no-part"; "--concurrent-fragments"; "4";
      "-o"; tempFilePath; url])%list.

(** The title made safe for a file name: characters other than [\w],
    [\s] and [-] are removed, every run of white space becomes one
    underscore, and at most 100 characters are kept. The title is a
    text or absent (on a repeated query parameter, an array, the source
    throws). *)
Definition is_word (c : ascii) : bool :=
  is_digit c || is_upper c || is_lower c || (code c =? 95)%N.

Fixpoint filter (p : ascii -> bool) (s : string) : string :=
  match s with
  | EmptyString => EmptyString
  | String c s' => if p c then String c (filter p s') else filter p s'
  end.

(** [s.replace(/\s+/g, "_")]; [inRun] tells that the previous
    character was white space. *)
Fixpoint underscoreSpaces (inRun : bool) (s : string) : string :=
  match s with
  | EmptyString => EmptyString
  | String c s' =>
      if is_space c then
        if inRun then underscoreSpaces true s'
        else String "_"%char (underscoreSpaces true s')
      else String c (underscoreSpaces false s')
  end.

Definition sanitizeTitle (title : option string) : string :=
  let t := match title with
           | Some s => if String.eqb s "" then "video" else s
           | None => "video"
           end in
  take 100
    (underscoreSpaces false
       (filter (fun c => is_word c || is_space c || (code c =? 45)%N) t)).

End Negotiation.

(** ** The event-stream session of download-progress.ts

    The callbacks registered on the subprocess, the merge timer and the
    request, as steps on the state they share. The wait inside the exit
    handler (the poll for the output file) ends the step; the timer that
    resumes it is a callback of its own. *)

Module Session.
Import JsString Progress.

Section Handler.
Variable cwd : string.
Variable tempFilePath : string.
Variable filename : string.
Variable downloadId : string.

Record session : Type := {
  trk : tracker;
  isMerging : bool;
  mergeInterval : bool;          (* the 10 s interval is set *)
  downloadSuccess : bool;
  killed : bool;                 (* proc.kill() was called *)
  ended : bool;                  (* res.end() was called *)
  polling : option nat;          (* the exit handler waits; attempts *)
  files : gset string;
  sent : list sse
}.

Definition send (e : sse) (s : session) : session :=
  {| trk := trk s; isMerging := isMerging s; mergeInterval := mergeInterval s;
     downloadSuccess := downloadSuccess s; killed := killed s; ended := ended s;
     polling := polling s; files := files s; sent := (sent s ++ [e])%list |}.

Definition sendAll (es : list sse) (s : session) : session :=
  fold_left (fun s e => send e s) es s.

Definition setFiles (f : gset string) (s : session) : session :=
  {| trk := trk s; isMerging := isMerging s; mergeInterval := mergeInterval s;
     downloadSuccess := downloadSuccess s; killed := killed s; ended := ended s;
     polling := polling s; files := f; sent := sent s |}.

Definition setPolling (p : option nat) (s : session) : session :=
  {| trk := trk s; isMerging := isMerging s; mergeInterval := mergeInterval s;
     downloadSuccess := downloadSuccess s; killed := killed s; ended := ended s;
     polling := p; files := files s; sent := sent s |}.

Definition resEnd (s : session) : session :=
  {| trk := trk s; isMerging := isMerging s; mergeInterval := mergeInterval s;
     downloadSuccess := downloadSuccess s; killed := killed s; ended := true;
     polling := polling s; files := files s; sent := sent s |}.

(** After [sendEvent("start", ...)], [sendEvent("progress", 0)] and
    [spawn]. *)
Definition start (files0 : gset string) : session :=
  {| trk := tracker0; isMerging := false; mergeInterval := false;
     downloadSuccess := false; killed := false; ended := false;
     polling := None; files := files0;
     sent := [EvStart downloadId "Download started"; EvProgress 0] |}.

Definition fileExists (s : session) : bool :=
  Fs.existsSync cwd (files s) tempFilePath.

(** "Clean up temp file": [if (fs.existsSync(p)) fs.unlinkSync(p)]. *)
Definition removeTemp (s : session) : session :=
  if fileExists s then setFiles (Fs.unlink cwd (files s) tempFilePath) s else s.

(** "Detect merging stage". *)
Definition detectMerging (output : string) (s : session) : session :=
  if includes output "[Merger]" || includes output "Merging formats" then
    if negb (isMerging s) then
      let s1 := {| trk := trk s; isMerging := true; mergeInterval := mergeInterval s;
                   downloadSuccess := downloadSuccess s; killed := killed s;
                   ended := ended s; polling := polling s; files := files s;
                   sent := sent s |} in
      let s2 := send (EvMerging
         "Merging video and audio... This may take a while for large files.") s1 in
      {| trk := trk s2; isMerging := isMerging s2; mergeInterval := true;
         downloadSuccess := downloadSuccess s2; killed := killed s2;
         ended := ended s2; polling := polling s2; files := files s2;
         sent := sent s2 |}
    else s
  else s.

Definition runParser (output : string) (s : session) : session :=
  let (t, es) := parseProgress (trk s) output in
  sendAll es
    {| trk := t; isMerging := isMerging s; mergeInterval := mergeInterval s;
       downloadSuccess := downloadSuccess s; killed := killed s; ended := ended s;
       polling := polling s; files := files s; sent := sent s |}.

(** "Detect errors". *)
Definition detectError (output : string) (s : session) : session :=
  if includes output "ERROR:" || includes output "Conversion failed" then
    send (EvError
      "Download failed during processing. File may be too large for available resources.") s
  else s.

Definition onStdout (output : string) (s : session) : session :=
  runParser output (detectMerging output s).

Definition onStderr (output : string) (s : session) : session :=
  runParser output (detectMerging output (detectError output s)).

Definition clearMergeInterval (s : session) : session :=
  {| trk := trk s; isMerging := isMerging s; mergeInterval := false;
     downloadSuccess := downloadSuccess s; killed := killed s; ended := ended s;
     polling := polling s; files := files s; sent := sent s |}.

Definition maxAttempts : nat := 50.

(** The exit handler after its loop, exit code 0. *)
Definition finishClose (s : session) : session :=
  let s := setPolling None s in
  if fileExists s then
    let s1 := {| trk := trk s; isMerging := isMerging s;
                 mergeInterval := mergeInterval s;
                 downloadSuccess := true; killed := killed s; ended := ended s;
                 polling := polling s; files := files s; sent := sent s |} in
    resEnd (send (EvComplete downloadId filename tempFilePath
                    "Download complete! Starting browser download...") s1)
  else
    resEnd (send (EvError
      "Download completed but file not found. This may be due to insufficient storage space.") s).

(** The loop test with [attempts] waits behind it: wait again, or
    leave the loop. *)
Definition pollFile (attempts : nat) (s : session) : session :=
  if negb (fileExists s) && (attempts <? maxAttempts)%nat
  then setPolling (Some attempts) s
  else finishClose s.

(** The exit code: [None] is [null], the exit by a signal. *)
Definition codeText (code : option Z) : string :=
  match code with
  | Some z => pretty z
  | None => "null"
  end.

Definition onClose (code : option Z) (s : session) : session :=
  clearMergeInterval
    match code with
    | Some 0%Z => pollFile 0 s
    | _ =>
        let errorMsg :=
          match code with
          | Some 1%Z =>
              "Download failed during merge. The file may be too large or storage is insufficient."
          | _ => "Download failed with error code: " ++ codeText code
          end in
        resEnd (removeTemp (send (EvError errorMsg) s))
    end.

(** The 100 ms timer of the poll fires. *)
Definition onPollTimer (s : session) : session :=
  match polling s with
  | Some attempts => pollFile (S attempts) s
  | None => s
  end.

Definition onProcError (message : string) (s : session) : session :=
  resEnd (removeTemp (send (EvError message) s)).

Definition onMergeTimer (s : session) : session :=
  if mergeInterval s then send (EvMerging "Still merging... Please wait.") s else s.

Definition onReqClose (s : session) : session :=
  let s1 := {| trk := trk s; isMerging := isMerging s;
               mergeInterval := mergeInterval s;
               downloadSuccess := downloadSuccess s; killed := true;
               ended := ended s; polling := polling s; files := files s;
               sent := sent s |} in
  if negb (downloadSuccess s1) && fileExists s1
  then setFiles (Fs.unlink cwd (files s1) tempFilePath) s1
  else s1.

(** What the event loop delivers. The last two are the doing of
    others: the subprocess writes the output file, the file-serving
    endpoint removes it. *)
Inductive callback : Type :=
| StdoutData (output : string)
| StderrData (output : string)
| MergeTimer
| ProcClose (code : option Z)
| PollTimer
| ProcError (message : string)
| ReqClose
| FileWritten
| FileRemoved.

Definition step (s : session) (c : callback) : session :=
  match c with
  | StdoutData o => onStdout o s
  | StderrData o => onStderr o s
  | MergeTimer => onMergeTimer s
  | ProcClose code => onClose code s
  | PollTimer => onPollTimer s
  | ProcError m => onProcError m s
  | ReqClose => onReqClose s
  | FileWritten => setFiles (files s ∪ {[ Path.resolve cwd tempFilePath ]}) s
  | FileRemoved => setFiles (Fs.unlink cwd (files s) tempFilePath) s
  end.

Definition run (s : session) (cs : list callback) : session :=
  fold_left step cs s.

(** What Node guarantees after the [close] of a child process: its
    output streams have ended and it emits nothing more. *)
Definition afterClose (c : callback) : bool :=
  match c with
  | StdoutData _ | StderrData _ | ProcClose _ | ProcError _ => false
  | _ => true
  end.

Definition isClose (c : callback) : bool :=
  match c with
  | ProcClose _ => true
  | _ => false
  end.

Definition isComplete (e : sse) : bool :=
  match e with
  | EvComplete _ _ _ _ => true
  | _ => false
  end.

Definition isTerminal (e : sse) : bool :=
  match e with
  | EvComplete _ _ _ _ | EvError _ => true
  | _ => false
  end.
End Handler.

End Session.

(** ** The cleanup of the merged file in the stream-download handler *)

Module StreamDownload.

Section Cleanup.
Variable cwd : string.
Variable tempFilePath : string.

Record cleaner : Type := {
  cleanupDone : bool;
  destroys : nat;            (* calls of fileStream.destroy() *)
  waiting : nat;             (* invocations inside their 100 ms wait *)
  started : nat;             (* invocations that passed the guard *)
  probes : nat;              (* calls of fs.existsSync *)
  unlinks : nat;             (* calls of unlinkAsync *)
  files : gset string
}.

Definition fresh (files0 : gset string) : cleaner :=
  {| cleanupDone := false; destroys := 0; waiting := 0; started := 0;
     probes := 0; unlinks := 0; files := files0 |}.

(** [cleanup(reason)] up to its [await]. *)
Definition cleanup (c : cleaner) : cleaner :=
  if cleanupDone c then c
  else {| cleanupDone := true; destroys := S (destroys c);
          waiting := S (waiting c); started := S (started c);
          probes := probes c; unlinks := unlinks c; files := files c |}.

(** The rest of [cleanup] once the wait is over; [ok] tells whether
    the unlink succeeds (a failure is caught and logged). *)
Definition resume (ok : bool) (c : cleaner) : cleaner :=
  match waiting c with
  | O => c
  | S w =>
      let present := Fs.existsSync cwd (files c) tempFilePath in
      {| cleanupDone := cleanupDone c; destroys := destroys c;
         waiting := w; started := started c;
         probes := S (probes c);
         unlinks := if present then S (unlinks c) else unlinks c;
         files := if present && ok
                  then Fs.unlink cwd (files c) tempFilePath else files c |}
  end.

Inductive trigger : Type :=
| ResFinish            (* "download complete" *)
| ReqClose             (* "request closed/cancelled" *)
| StreamError.         (* "stream error" *)

Inductive callback : Type :=
| Trigger (t : trigger)
| Timer (ok : bool).

Definition step (c : cleaner) (cb : callback) : cleaner :=
  match cb with
  | Trigger _ => cleanup c
  | Timer ok => resume ok c
  end.

Definition run (c : cleaner) (cbs : list callback) : cleaner :=
  fold_left step cbs c.
End Cleanup.

End StreamDownload.

(** ** The download-file handler *)

Module DownloadFile.
Import JsString Negotiation.

Section Handler.
Variable cwd : string.

Definition DOWNLOADS_DIR : string := Path.join cwd "downloads".

Inductive response : Type :=
| Status (code : nat) (error : string)
| Uncaught                                   (* an exception leaves the handler *)
| Piped (file contentType downloadFilename : string).

(** [path.basename]: the last segment that is not empty. *)
Definition basename (path : string) : string :=
  List.last (List.filter (fun seg => negb (String.eqb seg "")) (Path.split path))
    EmptyString.

(** The handler up to [fileStream.pipe(res)]. [dirExists] tells
    whether [readdirSync(DOWNLOADS_DIR)] succeeds. *)
Definition handler (method : string) (filePath filename : queryValue)
    (dirExists : bool) (files : gset string) : response :=
  if negb (String.eqb method "GET") then Status 405 "Method not allowed"
  else
    match filePath with
    | QStr p =>
        if String.eqb p "" then Status 400 "File path is required"
        else
          let normalizedPath := Path.normalize p in
          if negb (startsWith normalizedPath DOWNLOADS_DIR)
          then Status 403 "Invalid file path"
          else if negb dirExists then Uncaught
          else if negb (Fs.existsSync cwd files p) then Status 404 "File not found"
          else
            let contentType :=
              if endsWith p ".webm" then "audio/webm" else "video/mp4" in
            let downloadFilename :=
              match filename with
              | QStr f => if String.eqb f "" then basename p else f
              | QArr l => String.concat "," l      (* an array is truthy *)
              | QAbsent => basename p
              end in
            Piped (Path.resolve cwd p) contentType downloadFilename
    | _ => Status 400 "File path is required"
    end.

(** A path lies in a directory when it is the directory or continues
    it after a slash. *)
Definition inside (dir path : string) : bool :=
  String.eqb path dir || startsWith path (dir ++ "/").

(** *** The cleanup of the served file *)

Inductive timer : Type :=
| TCleanup           (* setTimeout(() => cleanup(...), 2000) *)
| TWait              (* the 1 s wait inside cleanup *)
| TRetry.            (* the retry after 3 s *)

Record server : Type := {
  cleanupDone : bool;
  streamEnded : bool;
  destroyed : bool;
  timers : list timer;
  started : nat;
  unlinks : nat;
  files : gset string
}.

Definition serving (files0 : gset string) : server :=
  {| cleanupDone := false; streamEnded := false; destroyed := false;
     timers := []; started := 0; unlinks := 0; files := files0 |}.

Definition later (t : timer) (s : server) : server :=
  {| cleanupDone := cleanupDone s; streamEnded := streamEnded s;
     destroyed := destroyed s; timers := (timers s ++ [t])%list;
     started := started s; unlinks := unlinks s; files := files s |}.

Definition cleanup (s : server) : server :=
  if cleanupDone s then s
  else {| cleanupDone := true; streamEnded := streamEnded s;
          destroyed := true; timers := (timers s ++ [TWait])%list;
          started := S (started s); unlinks := unlinks s; files := files s |}.

Variable filePath : string.

(** An unlink of the file if it exists; [ok] tells whether it
    succeeds, [retry] whether a failure schedules the retry. *)
Definition tryUnlink (ok retry : bool) (s : server) : server :=
  if Fs.existsSync cwd (files s) filePath then
    {| cleanupDone := cleanupDone s; streamEnded := streamEnded s;
       destroyed := destroyed s;
       timers := if negb ok && retry then (timers s ++ [TRetry])%list else timers s;
       started := started s; unlinks := S (unlinks s);
       files := if ok then Fs.unlink cwd (files s) filePath else files s |}
  else s.

Inductive callback : Type :=
| StreamError
| StreamEnd
| StreamClose
| ResFinish
| ResClose
| ReqClose
| Fire (i : nat) (ok : bool).   (* the i-th pending timer fires *)

Fixpoint remove_nth {A} (i : nat) (l : list A) : list A :=
  match i, l with
  | _, [] => []
  | O, _ :: l' => l'
  | S i', x :: l' => x :: remove_nth i' l'
  end.

Definition fire (i : nat) (ok : bool) (s : server) : server :=
  match nth_error (timers s) i with
  | None => s
  | Some t =>
      let s' := {| cleanupDone := cleanupDone s; streamEnded := streamEnded s;
                   destroyed := destroyed s; timers := remove_nth i (timers s);
                   started := started s; unlinks := unlinks s;
                   files := files s |} in
      match t with
      | TCleanup => cleanup s'
      | TWait => tryUnlink ok true s'
      | TRetry => tryUnlink ok false s'
      end
  end.

Definition step (s : server) (cb : callback) : server :=
  match cb with
  | StreamError => cleanup s
  | StreamEnd =>
      {| cleanupDone := cleanupDone s; streamEnded := true;
         destroyed := destroyed s; timers := timers s;
         started := started s; unlinks := unlinks s; files := files s |}
  | StreamClose => if streamEnded s then later TCleanup s else s
  | ResFinish => later TCleanup s
  | ResClose => if negb (streamEnded s) then cleanup s else later TCleanup s
  | ReqClose => if negb (streamEnded s) then cleanup s else s
  | Fire i ok => fire i ok s
  end.

Definition run (s : server) (cbs : list callback) : server :=
  fold_left step cbs s.
End Handler.

End DownloadFile.

(** ** The size parser of video-info.ts *)

Module VideoInfo.
Import JsString Regex JsNumber.

Local Open Scope Q_scope.

(** The class [[KMGT]] under the [i] flag. *)
Definition is_kmgt (c : ascii) : bool :=
  existsb (fun k => chr_eq true k c) ["K"; "M"; "G"; "T"]%char.

(** The pattern of [parseFileSize], with the [i] flag: the group 1
    [\d+ \.? \d*], [\s*], an optional group 2 [[KMGT]], an optional [i]
    and an optional [B]. *)
Definition fileSizeRe : regex :=
  RSeq (RGroup 1 (RSeq (RPlus is_digit)
                    (RSeq (ROpt (RChar "."%char)) (RStar is_digit))))
    (RSeq (RStar is_space)
      (RSeq (ROpt (RGroup 2 (RClass is_kmgt)))
        (RSeq (ROpt (RChar "i"%char)) (ROpt (RChar "B"%char))))).

Fixpoint toUpperCase (s : string) : string :=
  match s with
  | EmptyString => EmptyString
  | String c s' => String (upper c) (toUpperCase s')
  end.

(** [multipliers[unit] || 1] *)
Definition multiplier (unit : string) : Q :=
  if String.eqb unit "B" then 1
  else if String.eqb unit "K" then 1024
  else if String.eqb unit "M" then fmul 1024 1024
  else if String.eqb unit "G" then fmul (fmul 1024 1024) 1024
  else if String.eqb unit "T" then fmul (fmul (fmul 1024 1024) 1024) 1024
  else 1.

Definition parseFileSize (sizeStr : string) : Q :=
  if String.eqb sizeStr "" || String.eqb sizeStr "N/A" || String.eqb sizeStr "~"
  then 0
  else
    match str_match true fileSizeRe sizeStr with
    | None => 0
    | Some m =>
        match group 1 m with
        | None => 0
        | Some numText =>
            let num := parseFloat numText in
            let unit := toUpperCase (match group 2 m with
                                     | Some u => if String.eqb u "" then "B" else u
                                     | None => "B"
                                     end) in
            fmul num (multiplier unit)
        end
    end.

End VideoInfo.

(** * Properties *)

(** ** The matcher only reports matches

    [Match ci r pre cs cs'] : the pattern [r] matches the text [pre] and
    turns the captures [cs] into [cs']. *)

Module RegexFacts.
Import JsString Regex.

Inductive Star (p : ascii -> bool) : string -> Prop :=
| StarNil : Star p EmptyString
| StarCons c s : p c = true -> Star p s -> Star p (String c s).

Inductive Match (ci : bool) : regex -> string -> captures -> captures -> Prop :=
| MChar c a cs : chr_eq ci c a = true -> Match ci (RChar c) (String a EmptyString) cs cs
| MClass p a cs : p a = true -> Match ci (RClass p) (String a EmptyString) cs cs
| MSeq r1 r2 u v cs cs1 cs2 :
    Match ci r1 u cs cs1 -> Match ci r2 v cs1 cs2 ->
    Match ci (RSeq r1 r2) (u ++ v) cs cs2
| MAltL r1 r2 u cs cs' : Match ci r1 u cs cs' -> Match ci (RAlt r1 r2) u cs cs'
| MAltR r1 r2 u cs cs' : Match ci r2 u cs cs' -> Match ci (RAlt r1 r2) u cs cs'
| MOptSome r u cs cs' : Match ci r u cs cs' -> Match ci (ROpt r) u cs cs'
| MOptNone r cs : Match ci (ROpt r) EmptyString cs cs
| MStar p u cs : Star p u -> Match ci (RStar p) u cs cs
| MGroup n r u cs cs' : Match ci r u cs cs' -> Match ci (RGroup n r) u cs ((n, u) :: cs').

Lemma append_assoc (a b c : string) : (a ++ b) ++ c = a ++ (b ++ c).
Proof. induction a as [|x a IH]; simpl; [reflexivity | now rewrite IH]. Qed.

Lemma length_append (a b : string) :
  String.length (a ++ b) = (String.length a + String.length b)%nat.
Proof. induction a as [|x a IH]; simpl; [reflexivity | now rewrite IH]. Qed.

Lemma take_append (a b : string) : take (String.length a) (a ++ b) = a.
Proof. induction a as [|x a IH]; simpl; [now destruct b | now rewrite IH]. Qed.

Lemma consumed_append (a b : string) : consumed (a ++ b) b = a.
Proof.
  unfold consumed. rewrite length_append.
  replace (String.length a + String.length b - String.length b)%nat
    with (String.length a) by lia.
  apply take_append.
Qed.

Lemma star_sound {A} p s (k : string -> option A) x :
  star p s k = Some x ->
  exists u s', s = u ++ s' /\ Star p u /\ k s' = Some x.
Proof.
  induction s as [|c s IH]; simpl; intros H.
  - exists EmptyString, EmptyString. repeat split; [constructor | exact H].
  - destruct (p c) eqn:Hp.
    + destruct (star p s k) eqn:Hs.
      * inversion H; subst. destruct (IH eq_refl) as (u & s' & -> & Hu & Hk).
        exists (String c u), s'. repeat split; [now constructor | exact Hk].
      * exists EmptyString, (String c s). repeat split; [constructor | exact H].
    + exists EmptyString, (String c s). repeat split; [constructor | exact H].
Qed.

Lemma exec_sound {A} ci r : forall s cs (k : string -> captures -> option A) x,
  exec ci r s cs k = Some x ->
  exists u s' cs', s = u ++ s' /\ Match ci r u cs cs' /\ k s' cs' = Some x.
Proof.
  induction r as [c|p|r1 IH1 r2 IH2|r1 IH1 r2 IH2|r IH|p|n r IH];
    simpl; intros s cs k x H.
  - destruct s as [|a s]; [discriminate|].
    destruct (chr_eq ci c a) eqn:E; [|discriminate].
    exists (String a EmptyString), s, cs. repeat split; [now constructor | exact H].
  - destruct s as [|a s]; [discriminate|].
    destruct (p a) eqn:E; [|discriminate].
    exists (String a EmptyString), s, cs. repeat split; [now constructor | exact H].
  - apply IH1 in H. destruct H as (u & s1 & cs1 & -> & M1 & H).
    apply IH2 in H. destruct H as (v & s2 & cs2 & -> & M2 & H).
    exists (u ++ v), s2, cs2. rewrite append_assoc.
    repeat split; [econstructor; eassumption | exact H].
  - destruct (exec ci r1 s cs k) eqn:E.
    + inversion H; subst. apply IH1 in E. destruct E as (u & s' & cs' & -> & M & E').
      exists u, s', cs'. repeat split; [now apply MAltL | exact E'].
    + apply IH2 in H. destruct H as (u & s' & cs' & -> & M & H).
      exists u, s', cs'. repeat split; [now apply MAltR | exact H].
  - destruct (exec ci r s cs k) eqn:E.
    + inversion H; subst. apply IH in E. destruct E as (u & s' & cs' & -> & M & E').
      exists u, s', cs'. repeat split; [now apply MOptSome | exact E'].
    + exists EmptyString, s, cs. repeat split; [apply MOptNone | exact H].
  - apply star_sound in H. destruct H as (u & s' & -> & Hu & H).
    exists u, s', cs. repeat split; [now constructor | exact H].
  - apply IH in H. destruct H as (u & s' & cs' & -> & M & H).
    rewrite consumed_append in H.
    exists u, s', ((n, u) :: cs'). repeat split; [now constructor | exact H].
Qed.

Lemma match_here_sound ci r s cs :
  match_here ci r s = Some cs -> exists u, Match ci r u [] cs.
Proof.
  unfold match_here. intros H. apply exec_sound in H.
  destruct H as (u & s' & cs' & _ & M & E). inversion E; subst. now exists u.
Qed.

Lemma str_match_sound ci r s cs :
  str_match ci r s = Some cs -> exists u, Match ci r u [] cs.
Proof.
  induction s as [|c s IH]; simpl; intros H.
  - destruct (match_here ci r EmptyString) eqn:E; [|discriminate].
    inversion H; subst. eapply match_here_sound; eassumption.
  - destruct (match_here ci r (String c s)) eqn:E.
    + inversion H; subst. eapply match_here_sound; eassumption.
    + now apply IH.
Qed.

End RegexFacts.

(** ** The rounding of binary64 *)

Module Binary64Facts.
Import JsNumber.

Local Open Scope Q_scope.

Lemma pow2_pos k : 0 < pow2 k.
Proof. apply Qpower_0_lt. reflexivity. Qed.

Lemma pow2_add a b : pow2 (a + b) == pow2 a * pow2 b.
Proof. apply Qpower_plus. discriminate. Qed.

Lemma pow2_opp a : pow2 (- a) == / pow2 a.
Proof. apply Qpower_opp. Qed.

Lemma pow2_cancel a : pow2 (- a) * pow2 a == 1.
Proof. rewrite <- pow2_add. replace (- a + a)%Z with 0%Z by lia. reflexivity. Qed.

Lemma pow2_le a b : (a <= b)%Z -> pow2 a <= pow2 b.
Proof. intros H. apply Qpower_le_compat_l; [exact H | discriminate]. Qed.

Lemma pow2_lt a b : (a < b)%Z -> pow2 a < pow2 b.
Proof. intros H. apply Qpower_lt_compat_l; [exact H | reflexivity]. Qed.

Lemma pow2_lt_inv a b : pow2 a < pow2 b -> (a < b)%Z.
Proof.
  intros H. destruct (Z_lt_le_dec a b) as [L|L]; [exact L|].
  apply pow2_le in L. lra.
Qed.

Lemma pow2_Z n : (0 <= n)%Z -> pow2 n == inject_Z (2 ^ n).
Proof. intros H. unfold pow2. now rewrite Zpower_Qpower. Qed.

(** *** The binary exponent *)

Lemma Zlog2_bounds n : (0 < n)%Z ->
  inject_Z (2 ^ Z.log2 n) <= inject_Z n /\ inject_Z n < inject_Z (2 ^ (Z.log2 n + 1)).
Proof.
  intros H. destruct (Z.log2_spec n H) as [L U].
  split; [rewrite <- Zle_Qle; exact L|].
  rewrite <- Zlt_Qlt. replace (Z.log2 n + 1)%Z with (Z.succ (Z.log2 n)) by lia. exact U.
Qed.

Lemma Q_as_div q : q == inject_Z (Qnum q) / inject_Z (Zpos (Qden q)).
Proof. destruct q as [n d]. simpl. rewrite Qmake_Qdiv. reflexivity. Qed.

Lemma ilog2_rough q : 0 < q ->
  let e0 := (Z.log2 (Qnum q) - Z.log2 (Zpos (Qden q)))%Z in
  pow2 (e0 - 1) < q /\ q < pow2 (e0 + 1).
Proof.
  intros Hq e0.
  assert (Hn : (0 < Qnum q)%Z) by (destruct q as [n d]; unfold Qlt in Hq; simpl in *; lia).
  destruct (Zlog2_bounds _ Hn) as [Ln Un].
  destruct (Zlog2_bounds (Zpos (Qden q)) eq_refl) as [Ld Ud].
  set (l := Z.log2 (Qnum q)) in *. set (m := Z.log2 (Zpos (Qden q))) in *.
  assert (Hl : (0 <= l)%Z) by apply Z.log2_nonneg.
  assert (Hm : (0 <= m)%Z) by apply Z.log2_nonneg.
  rewrite <- pow2_Z in Ln, Un, Ld, Ud by lia.
  assert (Hd : 0 < inject_Z (Zpos (Qden q))) by reflexivity.
  assert (E : q * inject_Z (Zpos (Qden q)) == inject_Z (Qnum q)).
  { rewrite (Q_as_div q) at 1. field. intros C. rewrite C in Hd. lra. }
  split.
  - apply Qmult_lt_r with (z := inject_Z (Zpos (Qden q))); [exact Hd|]. rewrite E.
    apply Qlt_le_trans with (pow2 (e0 - 1) * pow2 (m + 1)).
    + apply Qmult_lt_l; [apply pow2_pos | exact Ud].
    + rewrite <- pow2_add. replace (e0 - 1 + (m + 1))%Z with l by (unfold e0; lia). exact Ln.
  - apply Qmult_lt_r with (z := inject_Z (Zpos (Qden q))); [exact Hd|]. rewrite E.
    apply Qlt_le_trans with (pow2 (l + 1)); [exact Un|].
    replace (l + 1)%Z with (e0 + 1 + m)%Z by (unfold e0; lia).
    rewrite pow2_add. apply Qmult_le_l; [apply pow2_pos | exact Ld].
Qed.

Lemma ilog2_spec q : 0 < q -> pow2 (ilog2 q) <= q /\ q < pow2 (ilog2 q + 1).
Proof.
  intros Hq. destruct (ilog2_rough q Hq) as [L U]. unfold ilog2.
  set (e0 := (Z.log2 (Qnum q) - Z.log2 (Zpos (Qden q)))%Z) in *.
  destruct (Qle_bool (pow2 e0) q) eqn:E.
  - apply Qle_bool_iff in E. now split.
  - split; [apply Qlt_le_weak; exact L|].
    replace (e0 - 1 + 1)%Z with e0 by lia.
    apply Qnot_le_lt. intros C. apply Qle_bool_iff in C. congruence.
Qed.

Lemma ilog2_unique q e : pow2 e <= q -> q < pow2 (e + 1) -> ilog2 q = e.
Proof.
  intros L U.
  assert (Hq : 0 < q) by (pose proof (pow2_pos e); lra).
  destruct (ilog2_spec q Hq) as [L' U'].
  assert (A : (e < ilog2 q + 1)%Z) by (apply pow2_lt_inv; lra).
  assert (B : (ilog2 q < e + 1)%Z) by (apply pow2_lt_inv; lra).
  lia.
Qed.

(** *** Rounding to the nearest integer *)

Lemma rne_cases q :
  let f := Qfloor q in
  (rne q = f /\ q - inject_Z f <= 1 # 2) \/ (rne q = (f + 1)%Z /\ 1 # 2 <= q - inject_Z f).
Proof.
  intros f. unfold rne. fold f.
  destruct (Qcompare (q - inject_Z f) (1 # 2)) eqn:C.
  - apply Qeq_alt in C. destruct (Z.even f); [left | right]; split; auto; lra.
  - apply Qlt_alt in C. left. split; auto. lra.
  - apply Qgt_alt in C. right. split; auto. lra.
Qed.

Lemma rne_near q : inject_Z (rne q) - (1 # 2) <= q /\ q <= inject_Z (rne q) + (1 # 2).
Proof.
  pose proof (Qfloor_le q) as L. pose proof (Qlt_floor q) as U.
  rewrite inject_Z_plus in U. change (inject_Z 1) with 1 in U.
  destruct (rne_cases q) as [[-> H] | [-> H]].
  - split; lra.
  - rewrite inject_Z_plus. change (inject_Z 1) with 1. split; lra.
Qed.

Lemma rne_Z z : rne (inject_Z z) = z.
Proof.
  unfold rne. rewrite Qfloor_Z.
  assert (E : Qcompare (inject_Z z - inject_Z z) (1 # 2) = Lt).
  { apply Qlt_alt. assert (Z0 : inject_Z z - inject_Z z == 0) by ring.
    rewrite Z0. reflexivity. }
  now rewrite E.
Qed.

Lemma rne_comp x y : x == y -> rne x = rne y.
Proof.
  intros E. unfold rne.
  assert (F : Qfloor x = Qfloor y) by now rewrite E.
  rewrite F.
  assert (C : Qcompare (x - inject_Z (Qfloor y)) (1 # 2)
              = Qcompare (y - inject_Z (Qfloor y)) (1 # 2)) by now rewrite E.
  now rewrite C.
Qed.

Lemma rne_mono x y : x <= y -> (rne x <= rne y)%Z.
Proof.
  intros H. destruct (Qeq_dec x y) as [E|N]; [rewrite (rne_comp _ _ E); lia|].
  assert (S : x < y) by (apply Qle_lteq in H; tauto).
  pose proof (Qfloor_resp_le _ _ H) as F.
  destruct (rne_cases x) as [[-> Hx] | [-> Hx]];
  destruct (rne_cases y) as [[-> Hy] | [-> Hy]]; try lia.
  destruct (Z.eq_dec (Qfloor x) (Qfloor y)) as [E|E]; [|lia].
  exfalso. rewrite E in Hx. lra.
Qed.

(** *** Rounding to 53 bits

    [ulp] bounds the relative error of one rounding. *)

Definition ulp : Q := 1 # 9007199254740992.

Lemma scaled_bounds q : 0 < q ->
  let m := q * pow2 (- (ilog2 q - 52)) in
  pow2 52 <= m /\ m < pow2 53 /\ m * pow2 (ilog2 q - 52) == q.
Proof.
  intros Hq m. destruct (ilog2_spec q Hq) as [L U].
  set (e := ilog2 q) in *.
  pose proof (pow2_pos (- (e - 52))) as P.
  repeat split.
  - replace 52%Z with (e + - (e - 52))%Z at 1 by lia. rewrite pow2_add.
    unfold m. apply Qmult_le_compat_r; [exact L | lra].
  - replace 53%Z with (e + 1 + - (e - 52))%Z by lia. rewrite pow2_add.
    unfold m. apply Qmult_lt_r; [exact P | exact U].
  - unfold m. rewrite <- Qmult_assoc, pow2_cancel. ring.
Qed.

Lemma mantissa_bounds q : 0 < q ->
  let N := rne (q * pow2 (- (ilog2 q - 52))) in
  (2 ^ 52 <= N <= 2 ^ 53)%Z.
Proof.
  intros Hq N. destruct (scaled_bounds q Hq) as (L & U & _).
  rewrite (pow2_Z 52) in L by lia. rewrite (pow2_Z 53) in U by lia.
  split.
  - rewrite <- (rne_Z (2 ^ 52)). now apply rne_mono.
  - rewrite <- (rne_Z (2 ^ 53)). apply rne_mono. lra.
Qed.

Lemma round53_rel q : 0 < q ->
  q * (1 - ulp) <= round53 q /\ round53 q <= q * (1 + ulp).
Proof.
  intros Hq. unfold round53.
  destruct (scaled_bounds q Hq) as (L & U & E).
  set (k := (ilog2 q - 52)%Z) in *. set (m := q * pow2 (- k)) in *.
  destruct (rne_near m) as [A B].
  pose proof (pow2_pos k) as P.
  assert (H52 : pow2 52 == 4503599627370496) by reflexivity.
  rewrite H52 in L.
  assert (Hm : (1 # 2) <= m * ulp).
  { unfold ulp. apply Qle_trans with (4503599627370496 * (1 # 9007199254740992)).
    - discriminate.
    - apply Qmult_le_compat_r; [exact L | discriminate]. }
  clearbody m. split.
  - rewrite <- E.
    assert (R : m * pow2 k * (1 - ulp) == (m - m * ulp) * pow2 k) by ring.
    rewrite R. apply Qmult_le_compat_r; lra.
  - rewrite <- E.
    assert (R : m * pow2 k * (1 + ulp) == (m + m * ulp) * pow2 k) by ring.
    rewrite R. apply Qmult_le_compat_r; lra.
Qed.

Lemma ilog2_mono x y : 0 < x -> x <= y -> (ilog2 x <= ilog2 y)%Z.
Proof.
  intros Hx H. assert (Hy : 0 < y) by lra.
  destruct (ilog2_spec x Hx) as [Lx _]. destruct (ilog2_spec y Hy) as [_ Uy].
  assert (A : (ilog2 x < ilog2 y + 1)%Z) by (apply pow2_lt_inv; lra).
  lia.
Qed.

Lemma round53_value q : 0 < q ->
  exists N, (2 ^ 52 <= N <= 2 ^ 53)%Z /\
            round53 q = inject_Z N * pow2 (ilog2 q - 52).
Proof.
  intros Hq. eexists. split; [apply (mantissa_bounds q Hq) | reflexivity].
Qed.

Lemma round53_mono x y : 0 < x -> x <= y -> round53 x <= round53 y.
Proof.
  intros Hx H. assert (Hy : 0 < y) by lra.
  pose proof (ilog2_mono x y Hx H) as K.
  destruct (Z.eq_dec (ilog2 x) (ilog2 y)) as [E|E].
  - unfold round53. rewrite E.
    apply Qmult_le_compat_r; [|apply Qlt_le_weak, pow2_pos].
    rewrite <- Zle_Qle. apply rne_mono.
    apply Qmult_le_compat_r; [exact H | apply Qlt_le_weak, pow2_pos].
  - destruct (round53_value x Hx) as (Nx & [_ Ux] & ->).
    destruct (round53_value y Hy) as (Ny & [Ly _] & ->).
    apply Qle_trans with (pow2 53 * pow2 (ilog2 x - 52)).
    + apply Qmult_le_compat_r; [|apply Qlt_le_weak, pow2_pos].
      rewrite (pow2_Z 53) by lia. now rewrite <- Zle_Qle.
    + apply Qle_trans with (pow2 52 * pow2 (ilog2 y - 52)).
      * rewrite <- !pow2_add. apply pow2_le. lia.
      * apply Qmult_le_compat_r; [|apply Qlt_le_weak, pow2_pos].
        rewrite (pow2_Z 52) by lia. now rewrite <- Zle_Qle.
Qed.

(** *** [round64] on what is not negative *)

Lemma Qnum_pos q : 0 < q -> exists p, Qnum q = Zpos p.
Proof.
  destruct q as [[|p|p] d]; unfold Qlt; simpl; intros H; try lia. now exists p.
Qed.

Lemma round64_pos q : 0 < q -> round64 q == round53 q.
Proof.
  intros H. unfold round64. destruct (Qnum_pos q H) as [p ->]. apply Qred_correct.
Qed.

Lemma round64_zero q : q == 0 -> round64 q = 0.
Proof.
  intros H. unfold round64.
  assert (E : Qnum q = 0%Z) by (destruct q as [n d]; unfold Qeq in H; simpl in *; lia).
  now rewrite E.
Qed.

Lemma round64_rel q : 0 <= q ->
  q * (1 - ulp) <= round64 q /\ round64 q <= q * (1 + ulp).
Proof.
  intros H. apply Qle_lteq in H. destruct H as [H|H].
  - rewrite (round64_pos q H). now apply round53_rel.
  - rewrite (round64_zero q (Qeq_sym _ _ H)). rewrite <- H. split; discriminate.
Qed.

Lemma round64_nonneg q : 0 <= q -> 0 <= round64 q.
Proof.
  intros H. destruct (round64_rel q H) as [L _].
  apply Qle_trans with (q * (1 - ulp)); [|exact L].
  apply Qmult_le_0_compat; [exact H | discriminate].
Qed.

Lemma round64_positive q : 0 < q -> 0 < round64 q.
Proof.
  intros H. destruct (round64_rel q (Qlt_le_weak _ _ H)) as [L _].
  apply Qlt_le_trans with (q * (1 - ulp)); [|exact L].
  apply Qmult_lt_0_compat; [exact H | reflexivity].
Qed.

Lemma round64_mono x y : 0 <= x -> x <= y -> round64 x <= round64 y.
Proof.
  intros Hx H. apply Qle_lteq in Hx. destruct Hx as [Hx|Hx].
  - rewrite (round64_pos x Hx), (round64_pos y) by lra. now apply round53_mono.
  - rewrite (round64_zero x (Qeq_sym _ _ Hx)). apply round64_nonneg. lra.
Qed.

(** *** The values that need no rounding *)

Definition representable (x : Q) : Prop :=
  exists N k, (0 <= N < 2 ^ 53)%Z /\ x == inject_Z N * pow2 k.

Lemma round64_exact x : representable x -> round64 x == x.
Proof.
  intros (N & k & [N0 N1] & E).
  destruct (Z.eq_dec N 0%Z) as [->|NZ].
  - assert (Z0 : x == 0) by (rewrite E; ring).
    rewrite (round64_zero x Z0). now rewrite Z0.
  - assert (Hx : 0 < x).
    { rewrite E. apply Qmult_lt_0_compat; [|apply pow2_pos].
      change 0 with (inject_Z 0). rewrite <- Zlt_Qlt. lia. }
    rewrite (round64_pos x Hx). unfold round53.
    destruct (ilog2_spec x Hx) as [L _].
    set (k0 := (ilog2 x - 52)%Z).
    assert (K : (k0 <= k)%Z).
    { assert (A : pow2 (ilog2 x) < pow2 (53 + k)).
      { apply Qle_lt_trans with x; [exact L|]. rewrite E, pow2_add.
        apply Qmult_lt_r; [apply pow2_pos|].
        rewrite (pow2_Z 53) by lia. now rewrite <- Zlt_Qlt. }
      apply pow2_lt_inv in A. unfold k0. lia. }
    assert (M : x * pow2 (- k0) == inject_Z (N * 2 ^ (k - k0))).
    { rewrite E, inject_Z_mult, <- (pow2_Z (k - k0)) by lia.
      rewrite <- Qmult_assoc, <- pow2_add.
      replace (k + - k0)%Z with (k - k0)%Z by lia. reflexivity. }
    rewrite (rne_comp _ _ M), rne_Z, inject_Z_mult, <- (pow2_Z (k - k0)) by lia.
    rewrite <- Qmult_assoc, <- pow2_add.
    replace (k - k0 + k0)%Z with k by lia. now rewrite E.
Qed.

Lemma round64_representable x : 0 <= x -> representable (round64 x).
Proof.
  intros H. apply Qle_lteq in H. destruct H as [H|H].
  - destruct (round53_value x H) as (N & [L U] & E).
    destruct (Z.eq_dec N (2 ^ 53)%Z) as [->|NE].
    + exists (2 ^ 52)%Z, (ilog2 x - 52 + 1)%Z. split; [lia|].
      rewrite (round64_pos x H), E, pow2_add.
      assert (R : inject_Z (2 ^ 53) == inject_Z (2 ^ 52) * pow2 1) by reflexivity.
      rewrite R. ring.
    + exists N, (ilog2 x - 52)%Z. split; [lia|].
      now rewrite (round64_pos x H), E.
  - exists 0%Z, 0%Z. split; [lia|].
    now rewrite (round64_zero x (Qeq_sym _ _ H)).
Qed.

Lemma representable_scale x j : representable x -> representable (x * pow2 j).
Proof.
  intros (N & k & B & E). exists N, (k + j)%Z. split; [exact B|].
  rewrite E, pow2_add. ring.
Qed.

Lemma round64_idem x : 0 <= x -> round64 (round64 x) == round64 x.
Proof. intros H. apply round64_exact, round64_representable, H. Qed.

(** *** Accumulated rounding errors

    [within L H v x]: the computed [x] lies between [v * L] and
    [v * H], for the exact value [v]. *)

Definition within (L H v x : Q) : Prop := v * L <= x /\ x <= v * H.

Lemma within_exact v : within 1 1 v v.
Proof. unfold within. split; rewrite Qmult_1_r; apply Qle_refl. Qed.

Lemma within_round L H v x :
  within L H v x -> 0 <= v -> 0 <= L ->
  within (L * (1 - ulp)) (H * (1 + ulp)) v (round64 x).
Proof.
  intros [A B] Hv HL.
  assert (Hx : 0 <= x).
  { apply Qle_trans with (v * L); [apply Qmult_le_0_compat; assumption | exact A]. }
  destruct (round64_rel x Hx) as [R1 R2]. split.
  - apply Qle_trans with (x * (1 - ulp)); [|exact R1].
    rewrite Qmult_assoc. apply Qmult_le_compat_r; [exact A | discriminate].
  - apply Qle_trans with (x * (1 + ulp)); [exact R2|].
    rewrite Qmult_assoc. apply Qmult_le_compat_r; [exact B | discriminate].
Qed.

Lemma within_scale c L H v x :
  within L H v x -> 0 <= c -> within L H (v * c) (x * c).
Proof.
  intros [A B] Hc. split.
  - assert (R : v * c * L == v * L * c) by ring. rewrite R.
    now apply Qmult_le_compat_r.
  - assert (R : v * c * H == v * H * c) by ring. rewrite R.
    now apply Qmult_le_compat_r.
Qed.

Lemma within_div c L H v x :
  within L H v x -> 0 < c -> within L H (v / c) (x / c).
Proof.
  intros W Hc. unfold Qdiv. apply within_scale; [exact W|].
  apply Qlt_le_weak, Qinv_lt_0_compat, Hc.
Qed.

Lemma within_plus f L H v x :
  within L H v x -> 0 <= f -> L <= 1 -> 1 <= H -> within L H (f + v) (f + x).
Proof.
  intros [A B] Hf HL HH. split.
  - assert (R : (f + v) * L == f * L + v * L) by ring. rewrite R.
    assert (F : f * L <= f).
    { rewrite <- (Qmult_1_r f) at 2. rewrite !(Qmult_comm f).
      now apply Qmult_le_compat_r. }
    lra.
  - assert (R : (f + v) * H == f * H + v * H) by ring. rewrite R.
    assert (F : f <= f * H).
    { rewrite <- (Qmult_1_r f) at 1. rewrite !(Qmult_comm f).
      now apply Qmult_le_compat_r. }
    lra.
Qed.

Lemma within_quot L1 H1 L2 H2 v w x y :
  within L1 H1 v x -> within L2 H2 w y ->
  0 <= v -> 0 < w -> 0 <= L1 -> 0 < L2 ->
  within (L1 / H2) (H1 / L2) (v / w) (x / y).
Proof.
  intros [A B] [C D] Hv Hw HL1 HL2.
  assert (Hy : 0 < y).
  { apply Qlt_le_trans with (w * L2); [apply Qmult_lt_0_compat; assumption | exact C]. }
  assert (HH2 : 0 < H2).
  { apply Qnot_le_lt. intros N.
    assert (w * H2 <= 0).
    { rewrite <- (Qmult_0_r w). rewrite !(Qmult_comm w).
      apply Qmult_le_compat_r; [exact N | lra]. }
    lra. }
  assert (Hx : 0 <= x).
  { apply Qle_trans with (v * L1); [apply Qmult_le_0_compat; assumption | exact A]. }
  split.
  - apply Qle_shift_div_l; [exact Hy|].
    apply Qle_trans with (v * L1); [|exact A].
    assert (R : v / w * (L1 / H2) * y == v * L1 * (y / (w * H2))).
    { field. split; lra. }
    rewrite R. rewrite <- (Qmult_1_r (v * L1)) at 2.
    rewrite !(Qmult_comm (v * L1)). apply Qmult_le_compat_r.
    + apply Qle_shift_div_r; [apply Qmult_lt_0_compat; assumption | lra].
    + apply Qmult_le_0_compat; assumption.
  - apply Qle_shift_div_r; [exact Hy|].
    apply Qle_trans with (v * H1); [exact B|].
    assert (R : v / w * (H1 / L2) * y == v * H1 * (y / (w * L2))).
    { field. split; lra. }
    rewrite R. rewrite <- (Qmult_1_r (v * H1)) at 1.
    rewrite !(Qmult_comm (v * H1)). apply Qmult_le_compat_r.
    + apply Qle_shift_div_l; [apply Qmult_lt_0_compat; assumption | lra].
    + apply Qle_trans with x; [exact Hx | exact B].
Qed.

Lemma within_weaken L H L' H' v x :
  within L H v x -> 0 <= v -> L' <= L -> H <= H' -> within L' H' v x.
Proof.
  intros [A B] Hv HL HH. split.
  - apply Qle_trans with (v * L); [|exact A].
    rewrite !(Qmult_comm v). now apply Qmult_le_compat_r.
  - apply Qle_trans with (v * H); [exact B|].
    rewrite !(Qmult_comm v). now apply Qmult_le_compat_r.
Qed.

Lemma within_comp L H v v' x : v == v' -> within L H v x -> within L H v' x.
Proof. unfold within. intros E [A B]. rewrite <- E. now split. Qed.

(** Scaling by a power of two does not round. *)
Lemma fmul_pow2_exact v m k :
  representable v -> m == pow2 k -> fmul v m == v * m.
Proof.
  intros R E. apply round64_exact.
  destruct (representable_scale v k R) as (N & j & B & H).
  exists N, j. split; [exact B|]. now rewrite <- H, E.
Qed.

(** A binary64 value is kept in lowest terms. *)
Lemma round64_canon x : Qred (round64 x) = round64 x.
Proof.
  unfold round64. destruct (Qnum x); [reflexivity | apply Qred_complete, Qred_correct ..].
Qed.

Lemma round64_exact_eq x : representable x -> round64 x = Qred x.
Proof.
  intros R. rewrite <- round64_canon. apply Qred_complete, round64_exact, R.
Qed.

End Binary64Facts.

(** ** [round64] against the binary64 of the kernel

    The kernel of the proof assistant has the binary64 arithmetic of
    the machine. On the operands below, its sum, difference, product
    and quotient are the values [fadd], [fsub], [fmul] and [fdiv] give,
    ties included, and so are the combined percentage and the
    comparison with [0.1] of the progress parser. *)

Module Binary64Check.
Import JsNumber Progress.

Local Open Scope Q_scope.

(** The rational a finite binary64 value denotes. *)
Definition toQ (x : PrimFloat.float) : option Q :=
  match FloatOps.Prim2SF x with
  | SpecFloat.S754_zero _ => Some 0
  | SpecFloat.S754_finite s m e =>
      let v := inject_Z (Zpos m) * pow2 e in
      Some (Qred (if s then - v else v))
  | _ => None
  end.

(** An integer below [2 ^ 53] as a binary64 value. *)
Definition ofZ (z : Z) : PrimFloat.float := PrimFloat.of_uint63 (Uint63.of_Z z).

Definition same (x : PrimFloat.float) (q : Q) : bool :=
  match toQ x with
  | Some v => Qeq_bool v q
  | None => false
  end.

Definition agree (a b : Z) : bool :=
  let x := ofZ a in
  let y := ofZ b in
  let p := inject_Z a in
  let q := inject_Z b in
  same (PrimFloat.add x y) (fadd p q) && same (PrimFloat.sub x y) (fsub p q)
  && same (PrimFloat.mul x y) (fmul p q) && same (PrimFloat.div x y) (fdiv p q).

Definition samples : list Z :=
  [1; 2; 3; 5; 7; 10; 19; 29; 34; 35; 45; 50; 55; 80; 90; 91; 100; 233; 455;
   1000; 1024; 373511; 1048576; 4503599627370497; 9007199254740990;
   9007199254740991]%Z.

Lemma round64_is_binary64 :
  forallb (fun a => forallb (agree a) samples) samples = true.
Proof. vm_compute. reflexivity. Qed.

(** The combined percentage on the second stream, in the arithmetic of
    the kernel: sizes in thousandths of a MB, percentage in tenths. *)
Definition combined64 (f s p : Z) : PrimFloat.float :=
  let first := PrimFloat.div (ofZ f) (ofZ 1000) in
  let second := PrimFloat.div (ofZ s) (ofZ 1000) in
  let progress := PrimFloat.div (ofZ p) (ofZ 10) in
  PrimFloat.mul
    (PrimFloat.div
       (PrimFloat.add first (PrimFloat.div (PrimFloat.mul second progress) (ofZ 100)))
       (PrimFloat.add first second))
    (ofZ 100).

Definition second_stream (f s p : Z) : tracker :=
  let first := fdiv (inject_Z f) 1000 in
  {| firstFileSize := first; secondFileSize := fdiv (inject_Z s) 1000;
     currentFileProgress := fdiv (inject_Z p) 10;
     firstFileComplete := true; lastSentProgress := 0; accumulatedMB := first |}.

Definition percents : list Z := map Z.of_nat (seq 0 101).

Lemma combinedProgress_is_binary64 :
  forallb (fun f =>
    forallb (fun s =>
      forallb (fun p =>
        same (combined64 f s (10 * p)) (combinedProgress (second_stream f s (10 * p))))
        percents)
      [80000; 90000; 373511; 1234567]%Z)
    [10000; 3500; 373511]%Z = true.
Proof. vm_compute. reflexivity. Qed.

(** The test [Math.abs(sizeMB - firstFileSize) > 0.1], sizes in tenths
    of a MB. *)
Definition apart64 (a b : Z) : bool :=
  PrimFloat.ltb (PrimFloat.div (ofZ 1) (ofZ 10))
    (PrimFloat.abs (PrimFloat.sub (PrimFloat.div (ofZ a) (ofZ 10))
                                  (PrimFloat.div (ofZ b) (ofZ 10)))).

Definition apart (a b : Z) : bool :=
  ltb (round64 (1 # 10))
      (abs (fsub (fdiv (inject_Z a) 10) (fdiv (inject_Z b) 10))).

Lemma tolerance_is_binary64 :
  forallb (fun a => forallb (fun b => Bool.eqb (apart64 a b) (apart a b))
                      (map Z.of_nat (seq 1 60)))
          (map Z.of_nat (seq 1 60)) = true.
Proof. vm_compute. reflexivity. Qed.

End Binary64Check.

(** ** The progress parser *)

Module ProgressFacts.
Import JsString Regex JsNumber Progress RegexFacts Binary64Facts.

Local Open Scope Q_scope.

Ltac inv_match :=
  repeat match goal with
    | H : Match _ (RSeq _ _) _ _ _ |- _ => inversion H; subst; clear H
    | H : Match _ (RChar _) _ _ _ |- _ => inversion H; subst; clear H
    | H : Match _ (RGroup _ _) _ _ _ |- _ => inversion H; subst; clear H
    | H : Match _ (RAlt _ _) _ _ _ |- _ => inversion H; subst; clear H
    | H : Match _ (ROpt _) _ _ _ |- _ => inversion H; subst; clear H
    | H : Match _ (RStar _) _ _ _ |- _ => inversion H; subst; clear H
    | H : Match _ (RClass _) _ _ _ |- _ => inversion H; subst; clear H
    end.

(** *** Shape of the captured texts *)

Lemma ci_letter (c a : ascii) :
  In c ["M"; "i"; "B"; "K"; "G"]%char ->
  chr_eq true c a = true -> lower a = lower c.
Proof.
  intros Hc. simpl in Hc.
  destruct Hc as [<-|[<-|[<-|[<-|[<-|[]]]]]];
    destruct a as [[] [] [] [] [] [] [] []]; vm_compute;
    intros H; solve [discriminate H | reflexivity].
Qed.

Ltac ci_letters :=
  repeat match goal with
    | H : chr_eq true ?c ?a = true |- _ =>
        let E := fresh "E" in
        assert (E : lower a = lower c) by (apply ci_letter; [simpl; auto 6 | exact H]);
        rewrite E; clear H E
    end.

Lemma sizeRe_unit output sm :
  str_match true sizeRe output = Some sm ->
  exists vtxt utxt,
    group 2 sm = Some vtxt /\ group 3 sm = Some utxt /\
    (toLowerCase utxt = "mib" \/ toLowerCase utxt = "kib" \/ toLowerCase utxt = "gib").
Proof.
  intros H. apply str_match_sound in H. destruct H as (u & M).
  unfold sizeRe in M.
  repeat match goal with
    | H : Match _ (RSeq _ _) _ _ _ |- _ => inversion H; subst; clear H
    | H : Match _ (RGroup 3 _) _ _ _ |- _ => inversion H; subst; clear H
    | H : Match _ (RGroup 2 _) _ _ _ |- _ => inversion H; subst; clear H
    | H : Match _ (RAlt _ _) _ _ _ |- _ => inversion H; subst; clear H
    | H : Match _ (RChar "M") _ _ _ |- _ => inversion H; subst; clear H
    | H : Match _ (RChar "K") _ _ _ |- _ => inversion H; subst; clear H
    | H : Match _ (RChar "G") _ _ _ |- _ => inversion H; subst; clear H
    | H : Match _ (RChar "i") _ _ _ |- _ => inversion H; subst; clear H
    | H : Match _ (RChar "B") _ _ _ |- _ => inversion H; subst; clear H
    end;
  (eexists; eexists; simpl; split; [reflexivity | split; [reflexivity|]]);
  simpl; ci_letters; simpl; auto.
Qed.

(** *** Sizes and percentages are not negative *)

Lemma span_digits s : Star is_digit (fst (span is_digit s)).
Proof.
  induction s as [|c s IH]; simpl; [constructor|].
  destruct (is_digit c) eqn:E; [|constructor].
  destruct (span is_digit s); simpl in *. now constructor.
Qed.

Lemma Star_app p u v : Star p u -> Star p v -> Star p (u ++ v).
Proof. induction 1; simpl; [auto | constructor; auto]. Qed.

Lemma digit_val_nonneg c : is_digit c = true -> (0 <= digit_val c)%Z.
Proof.
  unfold is_digit, digit_val. intros H.
  apply andb_prop in H. destruct H as [H _]. apply N.leb_le in H. lia.
Qed.

Lemma digits_val_nonneg u : Star is_digit u ->
  forall acc, (0 <= acc)%Z -> (0 <= digits_val acc u)%Z.
Proof.
  induction 1 as [|c s Hc _ IH]; simpl; intros acc Hacc; [assumption|].
  apply IH. apply digit_val_nonneg in Hc. lia.
Qed.

(** [parseFloat] rounds a decimal that is not negative. *)
Lemma parseFloat_rounds s : exists q, 0 <= q /\ parseFloat s = round64 q.
Proof.
  unfold parseFloat.
  pose proof (span_digits s) as Hip.
  destruct (span is_digit s) as [ip rest]; simpl in Hip.
  eexists. split; [|reflexivity].
  unfold Qle; simpl. rewrite Z.mul_1_r.
  apply digits_val_nonneg; [|lia].
  apply Star_app; [assumption|].
  destruct rest as [|c r]; [constructor|].
  destruct (Ascii.eqb c "."%char) eqn:E.
  - apply Ascii.eqb_eq in E. subst c. apply span_digits.
  - destruct c as [[] [] [] [] [] [] [] []]; try constructor; discriminate E.
Qed.

Lemma parseFloat_nonneg s : 0 <= parseFloat s.
Proof.
  destruct (parseFloat_rounds s) as (q & Hq & ->). now apply round64_nonneg.
Qed.

Lemma parseFloat_representable s : representable (parseFloat s).
Proof.
  destruct (parseFloat_rounds s) as (q & Hq & ->). now apply round64_representable.
Qed.

Lemma sizeMB_nonneg u v : 0 <= v -> 0 <= sizeMB u v.
Proof.
  intros Hv. unfold sizeMB, fmul, fdiv.
  destruct (String.eqb u "gib"); [|destruct (String.eqb u "kib")].
  - apply round64_nonneg, Qmult_le_0_compat; lra.
  - apply round64_nonneg, Qle_shift_div_l; lra.
  - assumption.
Qed.

Lemma parseLine_nonneg output p size :
  parseLine output = Some (p, size) -> 0 <= p /\ 0 <= size.
Proof.
  unfold parseLine. intros H.
  destruct (str_match false progressRe output) as [pm|]; [|discriminate].
  destruct (str_match true sizeRe output) as [sm|]; [|discriminate].
  destruct (group 1 pm); [|discriminate].
  destruct (group 2 sm); [|discriminate].
  destruct (group 3 sm); [|discriminate].
  inversion H; subst. split; [apply parseFloat_nonneg|].
  apply sizeMB_nonneg, parseFloat_nonneg.
Qed.

(** *** Invariant of the tracker *)

Record Inv (t : tracker) : Prop := {
  inv_first : 0 <= firstFileSize t;
  inv_second : 0 <= secondFileSize t;
  inv_complete : firstFileComplete t = true ->
                 accumulatedMB t = firstFileSize t /\ 0 < firstFileSize t
}.

Lemma Inv_tracker0 : Inv tracker0.
Proof. split; simpl; [lra | lra | discriminate]. Qed.

Lemma observeSize_inv t size : Inv t -> 0 <= size -> Inv (observeSize t size).
Proof.
  intros [Hf Hs Hc] Hsize. unfold observeSize, eqb.
  destruct (Qeq_bool (firstFileSize t) 0) eqn:E0.
  - apply Qeq_bool_iff in E0. split; simpl; auto.
    intros C. destruct (Hc C) as [_ Hpos]. lra.
  - apply Qeq_bool_neq in E0.
    destruct (negb (firstFileComplete t) && _)%bool.
    + split; simpl; auto. intros _. split; [reflexivity | lra].
    + now split.
Qed.

Lemma observeSize_complete t size :
  Inv t -> firstFileComplete t = true -> observeSize t size = t.
Proof.
  intros [_ _ Hc] C. destruct (Hc C) as [_ Hpos].
  unfold observeSize, eqb.
  destruct (Qeq_bool (firstFileSize t) 0) eqn:E0.
  - apply Qeq_bool_iff in E0. lra.
  - now rewrite C.
Qed.

Lemma update_inv t p size : Inv t -> 0 <= size -> Inv (update t p size).
Proof.
  intros I Hs. destruct (observeSize_inv t size I Hs) as [Hf Hs' Hc].
  unfold update. now split.
Qed.

Lemma emit_fields t :
  let t' := fst (emit t) in
  firstFileSize t' = firstFileSize t /\ secondFileSize t' = secondFileSize t /\
  currentFileProgress t' = currentFileProgress t /\
  firstFileComplete t' = firstFileComplete t /\ accumulatedMB t' = accumulatedMB t.
Proof.
  unfold emit.
  destruct (floor (lastSentProgress t) <? floor (combinedProgress t))%Z;
    simpl; repeat split.
Qed.


Lemma emit_inv t : Inv t -> Inv (fst (emit t)).
Proof.
  intros [Hf Hs Hc]. destruct (emit_fields t) as (E1 & E2 & E3 & E4 & E5).
  split; rewrite ?E1, ?E2, ?E4, ?E5; auto.
Qed.

Lemma parseProgress_inv t output : Inv t -> Inv (fst (parseProgress t output)).
Proof.
  intros I. unfold parseProgress.
  destruct (parseLine output) as [[p size]|] eqn:E; [|exact I].
  apply emit_inv, update_inv; [exact I|].
  now destruct (parseLine_nonneg _ _ _ E).
Qed.

Lemma feed_inv outputs : forall t, Inv t -> Inv (fst (feed t outputs)).
Proof.
  induction outputs as [|o os IH]; simpl; intros t I; [exact I|].
  pose proof (parseProgress_inv t o I) as I1.
  destruct (parseProgress t o) as [t1 e1]. simpl in I1.
  specialize (IH t1 I1). now destruct (feed t1 os).
Qed.

(** *** The rounding error of the combined percentage

    The percentage is computed with six roundings on two streams and
    four on one; [eps], two to the power -50, bounds the relative error
    they add up to. *)

Definition eps : Q := 1 # 1125899906842624.

Ltac qcomp :=
  match goal with
  | |- _ <= _ => apply Qle_bool_iff; vm_compute; reflexivity
  | |- _ < _ => unfold Qlt; vm_compute; reflexivity
  end.

Lemma two_stream_range f s p :
  0 < f -> 0 <= s -> 0 <= p -> p <= 100 ->
  0 <= (f + s * p / 100) / (f + s) * 100 <= 100.
Proof.
  intros Hf Hs Hp0 Hp1.
  assert (Hsp : 0 <= s * p) by (apply Qmult_le_0_compat; assumption).
  assert (Hsp' : s * p <= s * 100).
  { rewrite (Qmult_comm s p), (Qmult_comm s 100).
    apply Qmult_le_compat_r; assumption. }
  assert (Hd : s * p / 100 == s * p * (1 # 100)) by (field).
  assert (H0 : 0 <= (f + s * p / 100) / (f + s)).
  { apply Qle_shift_div_l; lra. }
  assert (H1 : (f + s * p / 100) / (f + s) <= 1).
  { apply Qle_shift_div_r; lra. }
  lra.
Qed.

Lemma two_stream_nonneg f s p :
  0 < f -> 0 <= s -> 0 <= p -> 0 <= (f + s * p / 100) / (f + s) * 100.
Proof.
  intros Hf Hs Hp.
  assert (Hsp : 0 <= s * p) by (apply Qmult_le_0_compat; assumption).
  assert (Hsp' : 0 <= s * p / 100) by (apply Qle_shift_div_l; lra).
  apply Qmult_le_0_compat; [|lra]. apply Qle_shift_div_l; lra.
Qed.

Lemma two_stream_error f s p :
  0 < f -> 0 <= s -> 0 <= p ->
  within (1 - eps) (1 + eps) ((f + s * p / 100) / (f + s) * 100)
         (fmul (fdiv (fadd f (fdiv (fmul s p) 100)) (fadd f s)) 100).
Proof.
  intros Hf Hs Hp. unfold fmul, fdiv, fadd.
  assert (Hsp : 0 <= s * p) by (apply Qmult_le_0_compat; assumption).
  assert (Hsp' : 0 <= s * p / 100) by (apply Qle_shift_div_l; lra).
  assert (Hn : 0 <= f + s * p / 100) by lra.
  assert (Hd : 0 < f + s) by lra.
  assert (Hq : 0 <= (f + s * p / 100) / (f + s)) by (apply Qle_shift_div_l; lra).
  assert (Hq' : 0 <= (f + s * p / 100) / (f + s) * 100) by (apply Qmult_le_0_compat; lra).
  pose proof (within_round _ _ _ _ (within_exact (s * p)) Hsp ltac:(qcomp)) as W1.
  pose proof (within_div 100 _ _ _ _ W1 ltac:(qcomp)) as W2.
  pose proof (within_round _ _ _ _ W2 Hsp' ltac:(qcomp)) as W3.
  pose proof (within_plus f _ _ _ _ W3 (Qlt_le_weak _ _ Hf) ltac:(qcomp) ltac:(qcomp)) as W4.
  pose proof (within_round _ _ _ _ W4 Hn ltac:(qcomp)) as W5.
  pose proof (within_round _ _ _ _ (within_exact (f + s)) (Qlt_le_weak _ _ Hd) ltac:(qcomp)) as V1.
  pose proof (within_quot _ _ _ _ _ _ _ _ W5 V1 Hn Hd ltac:(qcomp) ltac:(qcomp)) as W6.
  pose proof (within_round _ _ _ _ W6 Hq ltac:(qcomp)) as W7.
  pose proof (within_scale 100 _ _ _ _ W7 ltac:(qcomp)) as W8.
  pose proof (within_round _ _ _ _ W8 Hq' ltac:(qcomp)) as W9.
  apply (within_weaken _ _ _ _ _ _ W9 Hq'); qcomp.
Qed.

Lemma single_stream_error f p :
  0 < f -> 0 <= p ->
  within (1 - eps) (1 + eps) p (fmul (fdiv (fdiv (fmul f p) 100) f) 100).
Proof.
  intros Hf Hp. unfold fmul, fdiv.
  assert (E : f * p / 100 / f * 100 == p) by (field; lra).
  apply (within_comp _ _ _ _ _ E).
  assert (Hfp : 0 <= f * p) by (apply Qmult_le_0_compat; lra).
  assert (Hfp' : 0 <= f * p / 100) by (apply Qle_shift_div_l; lra).
  assert (Hq : 0 <= f * p / 100 / f) by (apply Qle_shift_div_l; lra).
  assert (Hq' : 0 <= f * p / 100 / f * 100) by (apply Qmult_le_0_compat; lra).
  pose proof (within_round _ _ _ _ (within_exact (f * p)) Hfp ltac:(qcomp)) as W1.
  pose proof (within_div 100 _ _ _ _ W1 ltac:(qcomp)) as W2.
  pose proof (within_round _ _ _ _ W2 Hfp' ltac:(qcomp)) as W3.
  pose proof (within_div f _ _ _ _ W3 Hf) as W4.
  pose proof (within_round _ _ _ _ W4 Hq ltac:(qcomp)) as W5.
  pose proof (within_scale 100 _ _ _ _ W5 ltac:(qcomp)) as W6.
  pose proof (within_round _ _ _ _ W6 Hq' ltac:(qcomp)) as W7.
  apply (within_weaken _ _ _ _ _ _ W7 Hq'); qcomp.
Qed.

(** The computation on the second stream. *)
Lemma combinedProgress_second t :
  Inv t -> firstFileComplete t = true ->
  combinedProgress t
  = fmul (fdiv (fadd (firstFileSize t)
                     (fdiv (fmul (secondFileSize t) (currentFileProgress t)) 100))
               (fadd (firstFileSize t) (secondFileSize t))) 100.
Proof.
  intros [Hf Hs Hc] C. destruct (Hc C) as [Hacc Hpos].
  unfold combinedProgress, totalSize, totalDownloaded. rewrite C, Hacc.
  unfold ltb.
  destruct (Qlt_le_dec 0 (fadd (firstFileSize t) (secondFileSize t))) as [|N];
    [reflexivity|].
  exfalso.
  assert (P : 0 < fadd (firstFileSize t) (secondFileSize t))
    by (apply round64_positive; lra).
  lra.
Qed.

(** The computation on the first stream. *)
Lemma combinedProgress_first t :
  firstFileComplete t = false ->
  combinedProgress t
  = if ltb 0 (firstFileSize t)
    then fmul (fdiv (fdiv (fmul (firstFileSize t) (currentFileProgress t)) 100)
                    (firstFileSize t)) 100
    else 0.
Proof.
  intros C. unfold combinedProgress, totalSize, totalDownloaded. now rewrite C.
Qed.

Lemma combined_nonneg t :
  Inv t -> 0 <= currentFileProgress t -> 0 <= combinedProgress t.
Proof.
  intros I Hp. destruct (firstFileComplete t) eqn:C.
  - rewrite (combinedProgress_second t I C).
    destruct I as [Hf Hs Hc]. destruct (Hc C) as [_ Hpos].
    destruct (two_stream_error _ _ _ Hpos Hs Hp) as [A _].
    pose proof (two_stream_nonneg _ _ _ Hpos Hs Hp) as V.
    apply Qle_trans with (2 := A). apply Qmult_le_0_compat; [exact V | qcomp].
  - rewrite (combinedProgress_first t C). unfold ltb.
    destruct (Qlt_le_dec 0 (firstFileSize t)) as [Hpos|]; [|lra].
    destruct (single_stream_error _ _ Hpos Hp) as [A _].
    apply Qle_trans with (2 := A). apply Qmult_le_0_compat; [exact Hp | qcomp].
Qed.

Lemma combined_range t :
  Inv t -> 0 <= currentFileProgress t -> currentFileProgress t <= 100 ->
  0 <= combinedProgress t /\ combinedProgress t <= 100 * (1 + eps).
Proof.
  intros I Hp0 Hp1. split; [now apply combined_nonneg|].
  destruct (firstFileComplete t) eqn:C.
  - rewrite (combinedProgress_second t I C).
    destruct I as [Hf Hs Hc]. destruct (Hc C) as [_ Hpos].
    destruct (two_stream_error _ _ _ Hpos Hs Hp0) as [_ B].
    destruct (two_stream_range _ _ _ Hpos Hs Hp0 Hp1) as [_ V].
    apply Qle_trans with (1 := B). apply Qmult_le_compat_r; [exact V | qcomp].
  - rewrite (combinedProgress_first t C). unfold ltb.
    destruct (Qlt_le_dec 0 (firstFileSize t)) as [Hpos|]; [|qcomp].
    destruct (single_stream_error _ _ Hpos Hp0) as [_ B].
    apply Qle_trans with (1 := B). apply Qmult_le_compat_r; [exact Hp1 | qcomp].
Qed.

(** What is at most 100 up to the rounding error has a floor of at most
    100. *)
Lemma floor_range c :
  0 <= c -> c <= 100 * (1 + eps) -> (0 <= floor c <= 100)%Z.
Proof.
  intros H0 H1. unfold floor. split.
  - change 0%Z with (Qfloor 0). now apply Qfloor_resp_le.
  - assert (L : 100 * (1 + eps) < 101) by qcomp.
    pose proof (Qfloor_le c) as F.
    assert (F' : inject_Z (Qfloor c) < inject_Z 101) by (change (inject_Z 101) with 101; lra).
    rewrite <- Zlt_Qlt in F'. lia.
Qed.

(** *** The combined percentage on the second stream *)


Local Abbreviation first_10_of_10 :=
  "[download] 100.0% of 10.00MiB at 2.50MiB/s ETA 00:00".



(** *** The emitted percentages *)

Lemma parseProgress_step t output :
  let (t', evs) := parseProgress t output in
  (evs = [] /\ lastSentProgress t' = lastSentProgress t)
  \/ (exists combined,
        evs = [EvProgress (floor combined)] /\
        (floor (lastSentProgress t) < floor combined)%Z /\
        lastSentProgress t' = combined).
Proof.
  unfold parseProgress.
  destruct (parseLine output) as [[p size]|]; [|now left].
  unfold emit.
  set (u := update t p size).
  assert (L : lastSentProgress u = lastSentProgress t).
  { unfold u, update, setProgress, observeSize; simpl.
    destruct (eqb (firstFileSize t) 0); [reflexivity|].
    now destruct (negb (firstFileComplete t) && _)%bool. }
  destruct (floor (lastSentProgress u) <? floor (combinedProgress u))%Z eqn:E.
  - right. exists (combinedProgress u).
    apply Z.ltb_lt in E. rewrite L in E. now repeat split.
  - left. now split.
Qed.

(** C2. A [progress] event carries the floor of the combined
    percentage and is emitted only when that floor exceeds the floor of
    the last value sent; so over any sequence of outputs, from any
    state of the tracker, the emitted events are [progress] events
    whose percentages increase strictly, starting above the floor of
    the value sent last before them. *)
Theorem progress_events_strictly_increasing (t : tracker) (outputs : list string) :
  exists ns : list Z,
    snd (feed t outputs) = map EvProgress ns /\
    StronglySorted Z.lt (floor (lastSentProgress t) :: ns).
Proof.
  revert t. induction outputs as [|o os IH]; intros t; simpl.
  - exists []. split; [reflexivity|]. repeat constructor.
  - pose proof (parseProgress_step t o) as S.
    destruct (parseProgress t o) as [t1 e1].
    destruct (IH t1) as (ns & Hns & Hsorted).
    destruct (feed t1 os) as [t2 e2]. simpl in Hns. simpl. subst e2.
    destruct S as [[-> L] | (combined & -> & Hlt & L)].
    + exists ns. rewrite <- L. now split.
    + exists (floor combined :: ns). split; [reflexivity|].
      rewrite L in Hsorted. constructor; [exact Hsorted|].
      inversion Hsorted as [|? ? _ Hall]; subst.
      constructor; [exact Hlt|].
      revert Hall. apply List.Forall_impl. intros a Ha. lia.
Qed.

(** *** Units *)

(** The scaling by 1024 does not round. *)
Lemma scale_1024_exact v :
  representable v ->
  fmul v 1024 = Qred (v * 1024) /\ fdiv v 1024 = Qred (v / 1024).
Proof.
  intros R. unfold fmul, fdiv. split; apply round64_exact_eq.
  - destruct (representable_scale v 10 R) as (N & k & B & E).
    exists N, k. split; [exact B|]. rewrite <- E. reflexivity.
  - destruct (representable_scale v (-10) R) as (N & k & B & E).
    exists N, k. split; [exact B|]. rewrite <- E. reflexivity.
Qed.

(** C7. When a text is read as a progress line, the percentage is the
    number captured after [[download]] and the size in MB is the
    captured figure divided by 1024 for KiB, unchanged for MiB and
    multiplied by 1024 for GiB (the unit is matched regardless of
    case); no other unit is read. The division and the multiplication
    are exact: scaling a binary64 value by 1024 does not round, and the
    size is the quotient or the product in lowest terms. *)
Theorem size_unit_conversion output p size :
  parseLine output = Some (p, size) ->
  exists pm sm ptxt vtxt utxt,
    str_match false progressRe output = Some pm /\ group 1 pm = Some ptxt /\
    str_match true sizeRe output = Some sm /\
    group 2 sm = Some vtxt /\ group 3 sm = Some utxt /\
    p = parseFloat ptxt /\
    ((toLowerCase utxt = "kib" /\ size = Qred (parseFloat vtxt / 1024)) \/
     (toLowerCase utxt = "mib" /\ size = parseFloat vtxt) \/
     (toLowerCase utxt = "gib" /\ size = Qred (parseFloat vtxt * 1024))).
Proof.
  unfold parseLine. intros H.
  destruct (str_match false progressRe output) as [pm|] eqn:Ep; [|discriminate].
  destruct (str_match true sizeRe output) as [sm|] eqn:Es; [|discriminate].
  destruct (sizeRe_unit _ _ Es) as (vtxt & utxt & G2 & G3 & U).
  rewrite G2, G3 in H.
  destruct (group 1 pm) as [ptxt|] eqn:G1; [|discriminate].
  inversion H; subst; clear H.
  exists pm, sm, ptxt, vtxt, utxt. repeat split; auto.
  destruct (scale_1024_exact _ (parseFloat_representable vtxt)) as [M D].
  unfold sizeMB.
  destruct U as [U|[U|U]]; rewrite U; simpl; auto.
Qed.

(** C7, the instances of the specification: 45.5% of 50.00MiB is read
    as 45.5 against 50 MB, and 2.00GiB as 2048 MB. *)
Lemma size_unit_conversion_examples :
  (parseLine "[download]  45.5% of 50.00MiB at  2.50MiB/s ETA 00:10" = Some (91 # 2, 50)
   /\ parseLine "[download]  45.5% of ~2.00GiB at  2.50MiB/s ETA 00:10" = Some (91 # 2, 2048))
  /\ exists pm sm ptxt vtxt utxt,
    str_match false progressRe "[download]   1.0% of 512.00KiB" = Some pm /\
    group 1 pm = Some ptxt /\
    str_match true sizeRe "[download]   1.0% of 512.00KiB" = Some sm /\
    group 2 sm = Some vtxt /\ group 3 sm = Some utxt /\
    1 = parseFloat ptxt /\
    ((toLowerCase utxt = "kib" /\ (1 # 2) = Qred (parseFloat vtxt / 1024)) \/
     (toLowerCase utxt = "mib" /\ (1 # 2) = parseFloat vtxt) \/
     (toLowerCase utxt = "gib" /\ (1 # 2) = Qred (parseFloat vtxt * 1024))).
Proof.
  split; [split; vm_compute; reflexivity|].
  apply (size_unit_conversion "[download]   1.0% of 512.00KiB" 1 (1 # 2)).
  vm_compute. reflexivity.
Defined.

End ProgressFacts.



(** ** The credential resolver and the execution wrapper *)

Module CookiesFacts.
Import JsString Cookies.

Lemma append_nonempty_l a b : a <> "" -> a ++ b <> "".
Proof. destruct a; [congruence | discriminate]. Qed.

Lemma normalize_nonempty path : Path.normalize path <> "".
Proof.
  unfold Path.normalize.
  destruct (String.eqb path ""); [discriminate|].
  destruct (String.eqb (Path.unsplit _) "") eqn:E.
  - destruct (startsWith path "/"); [discriminate|].
    destruct (endsWith path "/"); discriminate.
  - apply String.eqb_neq in E.
    destruct (startsWith path "/"); [discriminate|].
    destruct (endsWith path "/"); [now apply append_nonempty_l | exact E].
Qed.

Lemma join_nonempty a b : Path.join a b <> "".
Proof.
  unfold Path.join.
  destruct (String.eqb (if String.eqb a "" then b
                        else if String.eqb b "" then a else a ++ "/" ++ b) "");
    [discriminate | apply normalize_nonempty].
Qed.

Lemma getCookiesFilePath_nonempty cwd files p :
  getCookiesFilePath cwd files = Some p -> p <> "".
Proof.
  unfold getCookiesFilePath, possiblePaths; simpl.
  destruct (Fs.existsSync _ _ _); [intros [= <-]; apply join_nonempty|].
  destruct (Fs.existsSync _ _ _); [intros [= <-]; apply join_nonempty|].
  discriminate.
Qed.

Lemma getCookiesArgs_forced cwd files :
  getCookiesArgs cwd files true =
    match getCookiesFilePath cwd files with
    | Some cookiesPath => ["--cookies"; cookiesPath]
    | None => []
    end.
Proof.
  unfold getCookiesArgs; simpl.
  destruct (getCookiesFilePath cwd files) as [p|] eqn:E; [|reflexivity].
  apply getCookiesFilePath_nonempty in E. apply String.eqb_neq in E.
  unfold truthy. now rewrite E.
Qed.

(** C10. Without [forceUseCookies] the argument list is empty,
    whatever files exist; with it, the list is [--cookies] and the
    path of the cookies file found, and empty when none is found. *)
Theorem getCookiesArgs_spec (cwd : string) (files : gset string) (forceUseCookies : bool) :
  getCookiesArgs cwd files forceUseCookies =
    (if forceUseCookies then
       match getCookiesFilePath cwd files with
       | Some cookiesPath => ["--cookies"; cookiesPath]
       | None => []
       end
     else [])
  /\ getCookiesArgs cwd files false = [].
Proof.
  split; [|reflexivity].
  destruct forceUseCookies; [apply getCookiesArgs_forced | reflexivity].
Qed.

Section Wrapper.
Variable World : Type.
Variable cwd : string.
Variable files : World -> gset string.
Variable run : string -> list arg -> World -> outcome string * World.

Let exec := executeWithCookieRetry World cwd files run.

(** C5. With a cookies file present the command runs first with
    the cookie arguments before its last argument; when that run
    fails the command runs once more with the arguments as given;
    when this run fails too the error thrown is the one of the first
    run, and when it succeeds the result has [usedCookies = false]. *)
Theorem credentialed_error_surfaces
    (w w1 w2 : World) (log : list (call)) (command : string) (args : list string)
    (e1 : string) (r2 : outcome string) :
  hasCookiesFile cwd (files w) = true ->
  run command (argsWithCookies args (getCookiesArgs cwd (files w) true)) w
    = (Rejected e1, w1) ->
  run command (map Some args) w1 = (r2, w2) ->
  (exists cookiesPath,
      getCookiesFilePath cwd (files w) = Some cookiesPath /\
      argsWithCookies args (getCookiesArgs cwd (files w) true)
        = (map Some (List.removelast args)
           ++ [Some "--cookies"; Some cookiesPath] ++ [lastArg args])%list)
  /\ exec command args (w, log) =
      (match r2 with
       | Resolved out => Resolved {| output := out; usedCookies := false |}
       | Rejected _ => Rejected e1
       end,
       (w2, (log ++ [(command,
                      argsWithCookies args (getCookiesArgs cwd (files w) true));
                     (command, map Some args)])%list)).
Proof.
  intros Hc H1 H2. split.
  - unfold hasCookiesFile in Hc.
    destruct (getCookiesFilePath cwd (files w)) as [p|] eqn:E; [|discriminate].
    exists p. split; [reflexivity|].
    rewrite getCookiesArgs_forced. now rewrite E.
  - unfold exec, executeWithCookieRetry, bind, try, look, ret, throw,
      executeCommand; simpl.
    rewrite Hc; simpl. rewrite H1; simpl. rewrite H2.
    destruct r2; simpl; now rewrite <- app_assoc.
Qed.
End Wrapper.

(** The environment of the witness: a cookies file exists and every
    run fails, naming the arguments it was given. *)
Definition failing (command : string) (args : list arg) (w : unit)
  : outcome string * unit :=
  (Rejected (if existsb (fun a => match a with
                                  | Some s => String.eqb s "--cookies"
                                  | None => false
                                  end) args
             then "Command failed: with cookies"
             else "Command failed: without cookies"), w).

Lemma credentialed_error_surfaces_witness :
  executeWithCookieRetry unit "/app" (fun _ => {[ "/app/cookies.txt" ]}) failing
    "yt-dlp" ["--dump-json"; "--no-warnings"; "https://example.org/v"] (tt, [])
  = (Rejected "Command failed: with cookies",
     (tt, [("yt-dlp", [Some "--dump-json"; Some "--no-warnings"; Some "--cookies";
                       Some "/app/cookies.txt"; Some "https://example.org/v"]);
           ("yt-dlp", [Some "--dump-json"; Some "--no-warnings";
                       Some "https://example.org/v"])])).
Proof.
  refine (proj2 (credentialed_error_surfaces unit "/app"
            (fun _ => {[ "/app/cookies.txt" ]}) failing tt tt tt []
            "yt-dlp" ["--dump-json"; "--no-warnings"; "https://example.org/v"]
            "Command failed: with cookies"
            (Rejected "Command failed: without cookies") _ _ _));
    vm_compute; reflexivity.
Defined.

End CookiesFacts.

(** ** The format decision *)

Module NegotiationFacts.
Import JsString Negotiation.

(** C6. When the inspection fails the handler still decides:
    [isAudio] holds when the format identifier contains 251 or 140,
    [hasAudio] when the combined hint is the text [true] or [isAudio]
    holds, and the format requested is the identifier itself when
    [hasAudio] holds and the identifier followed by [+bestaudio]
    otherwise. *)
Theorem inspection_failure_falls_back (formatId : string) (isCombined : queryValue) :
  let d := decide formatId isCombined InspectionFailed in
  isAudio d = (includes formatId "251" || includes formatId "140")
  /\ hasAudio d = (isTrue isCombined || isAudio d)
  /\ formatToDownload d = (if hasAudio d then formatId else formatId ++ "+bestaudio")
  /\ (decide "140" QAbsent InspectionFailed
        = {| hasAudio := true; isAudio := true; formatToDownload := "140" |}
      /\ decide "299" QAbsent InspectionFailed
        = {| hasAudio := false; isAudio := false; formatToDownload := "299+bestaudio" |}
      /\ decide "18" (QStr "true") InspectionFailed
        = {| hasAudio := true; isAudio := false; formatToDownload := "18" |}).
Proof.
  unfold decide; simpl. repeat split.
Qed.

End NegotiationFacts.

(** ** The event-stream session *)

Module SessionFacts.
Import JsString Progress Session ProgressFacts.

Section Handler.
Variable cwd : string.
Variable tempFilePath : string.
Variable filename : string.
Variable downloadId : string.

Local Abbreviation step := (Session.step cwd tempFilePath filename downloadId).
Local Abbreviation run := (Session.run cwd tempFilePath filename downloadId).
Local Abbreviation onClose := (Session.onClose cwd tempFilePath filename downloadId).
Local Abbreviation pollFile := (Session.pollFile cwd tempFilePath filename downloadId).
Local Abbreviation finishClose := (Session.finishClose cwd tempFilePath filename downloadId).
Local Abbreviation onReqClose := (Session.onReqClose cwd tempFilePath).
Local Abbreviation start := (Session.start downloadId).

Definition hasComplete (s : session) : bool := existsb isComplete (sent s).

Lemma sendAll_sent es : forall s,
  sent (sendAll es s) = (sent s ++ es)%list /\
  downloadSuccess (sendAll es s) = downloadSuccess s /\
  polling (sendAll es s) = polling s /\
  mergeInterval (sendAll es s) = mergeInterval s /\
  files (sendAll es s) = files s /\ killed (sendAll es s) = killed s.
Proof.
  unfold sendAll. induction es as [|e es IH]; intros s; simpl.
  - rewrite app_nil_r. repeat split.
  - destruct (IH (send e s)) as (-> & -> & -> & -> & -> & ->). simpl.
    rewrite <- app_assoc. repeat split.
Qed.

Lemma parseProgress_events t output :
  existsb isComplete (snd (parseProgress t output)) = false /\
  (length (snd (parseProgress t output)) <= 1)%nat.
Proof.
  pose proof (parseProgress_step t output) as S.
  destruct (parseProgress t output) as [t' es]. simpl.
  destruct S as [[-> _] | (c & -> & _)]; simpl; split; auto.
Qed.

Lemma runParser_effect output s :
  exists es,
    sent (runParser output s) = (sent s ++ es)%list /\
    existsb isComplete es = false /\
    downloadSuccess (runParser output s) = downloadSuccess s /\
    polling (runParser output s) = polling s /\
    mergeInterval (runParser output s) = mergeInterval s /\
    files (runParser output s) = files s /\
    killed (runParser output s) = killed s.
Proof.
  unfold runParser.
  destruct (parseProgress_events (trk s) output) as [Hc _].
  destruct (parseProgress (trk s) output) as [t es]. simpl in Hc.
  exists es.
  match goal with |- context [sendAll es ?x] =>
    destruct (sendAll_sent es x) as (-> & -> & -> & -> & -> & ->) end.
  simpl. repeat split; auto.
Qed.

Lemma existsb_snoc {A} (f : A -> bool) l x :
  existsb f (l ++ [x]) = existsb f l || f x.
Proof. rewrite existsb_app. simpl. now rewrite orb_false_r. Qed.

(** *** [downloadSuccess] records the [complete] event *)

Definition recorded (s : session) : Prop := downloadSuccess s = hasComplete s.

Lemma recorded_append s s' es :
  sent s' = (sent s ++ es)%list -> existsb isComplete es = false ->
  downloadSuccess s' = downloadSuccess s -> recorded s -> recorded s'.
Proof.
  unfold recorded, hasComplete. intros -> H -> R.
  rewrite existsb_app, H, orb_false_r. exact R.
Qed.

Lemma finishClose_recorded s : recorded s -> recorded (finishClose s).
Proof.
  unfold recorded, hasComplete, Session.finishClose, fileExists. intros R.
  destruct s; simpl in *.
  destruct (Fs.existsSync cwd files0 tempFilePath); simpl;
    rewrite existsb_snoc; simpl; [now rewrite orb_true_r | now rewrite orb_false_r].
Qed.

Lemma pollFile_recorded n s : recorded s -> recorded (pollFile n s).
Proof.
  unfold Session.pollFile. intros R.
  destruct (negb (fileExists cwd tempFilePath s) && (n <? maxAttempts)%nat).
  - exact R.
  - now apply finishClose_recorded.
Qed.

Lemma step_recorded s c : recorded s -> recorded (step s c).
Proof.
  intros R. destruct c as [o|o| |code| |m| | |]; simpl.
  - unfold onStdout.
    destruct (runParser_effect o (detectMerging o s)) as (es & E & Hc & D & _).
    eapply recorded_append; [exact E | exact Hc | exact D |].
    unfold detectMerging.
    destruct (includes o "[Merger]" || includes o "Merging formats"); [|exact R].
    destruct (negb (isMerging s)); [|exact R].
    unfold recorded, hasComplete in *; simpl.
    now rewrite existsb_snoc, orb_false_r.
  - unfold onStderr.
    destruct (runParser_effect o (detectMerging o (detectError o s)))
      as (es & E & Hc & D & _).
    eapply recorded_append; [exact E | exact Hc | exact D |].
    assert (R1 : recorded (detectError o s)).
    { unfold detectError.
      destruct (includes o "ERROR:" || includes o "Conversion failed"); [|exact R].
      unfold recorded, hasComplete in *; simpl.
      now rewrite existsb_snoc, orb_false_r. }
    unfold detectMerging.
    destruct (includes o "[Merger]" || includes o "Merging formats"); [|exact R1].
    destruct (negb (isMerging (detectError o s))); [|exact R1].
    unfold recorded, hasComplete in *; simpl.
    now rewrite existsb_snoc, orb_false_r.
  - unfold onMergeTimer. destruct (mergeInterval s); [|exact R].
    unfold recorded, hasComplete in *; simpl.
    now rewrite existsb_snoc, orb_false_r.
  - unfold Session.onClose.
    assert (E : forall msg, recorded
              (resEnd (removeTemp cwd tempFilePath (send (EvError msg) s)))).
    { intros msg. unfold removeTemp, fileExists.
      destruct (Fs.existsSync cwd _ tempFilePath);
        unfold recorded, hasComplete in *; simpl;
        now rewrite existsb_snoc, orb_false_r. }
    destruct code as [[|[]|]|];
      try (unfold recorded, hasComplete in *; simpl; apply E).
    unfold recorded, hasComplete; simpl. now apply pollFile_recorded.
  - unfold onPollTimer. destruct (polling s); [|exact R].
    now apply pollFile_recorded.
  - unfold onProcError, removeTemp, fileExists.
    destruct (Fs.existsSync cwd _ tempFilePath);
      unfold recorded, hasComplete in *; simpl;
      now rewrite existsb_snoc, orb_false_r.
  - unfold Session.onReqClose, fileExists; simpl.
    destruct (negb (downloadSuccess s) && Fs.existsSync cwd (files s) tempFilePath);
      exact R.
  - exact R.
  - exact R.
Qed.

Lemma run_recorded cs : forall s, recorded s -> recorded (run s cs).
Proof.
  unfold Session.run.
  induction cs as [|c cs IH]; intros s R; simpl; [exact R|].
  apply IH, step_recorded, R.
Qed.

(** C8. Whatever has happened before, when the request closes the
    subprocess is sent the kill signal and nothing is written to the
    response; if no [complete] event has been sent the staging file
    does not exist afterwards, and if one has been sent the files are
    left as they are. *)
Theorem disconnect_kills_and_cleans (files0 : gset string) (cs : list callback) :
  let s := run (start files0) cs in
  let s' := step s ReqClose in
  killed s' = true /\ sent s' = sent s
  /\ downloadSuccess s = hasComplete s
  /\ (if hasComplete s then files s' = files s
      else Fs.existsSync cwd (files s') tempFilePath = false
           /\ files s' = files s ∖ {[ Path.resolve cwd tempFilePath ]}).
Proof.
  intros s s'.
  assert (R : recorded s) by (apply run_recorded; reflexivity).
  rewrite <- R. subst s'. simpl. unfold Session.onReqClose, fileExists; simpl.
  destruct (downloadSuccess s); simpl.
  - repeat split.
  - unfold Fs.existsSync, Fs.unlink.
    destruct (bool_decide (Path.resolve cwd tempFilePath ∈ files s)) eqn:E; simpl.
    + repeat split. apply bool_decide_eq_false. set_solver.
    + repeat split; [exact E|].
      apply bool_decide_eq_false in E. set_solver.
Qed.
(** *** Before and after the exit of the subprocess *)

Definition preClose (s : session) : Prop :=
  polling s = None /\ hasComplete s = false.

Lemma preClose_append s s' es :
  sent s' = (sent s ++ es)%list -> existsb isComplete es = false ->
  polling s' = polling s -> preClose s -> preClose s'.
Proof.
  unfold preClose, hasComplete. intros -> H -> [P C].
  split; [exact P|]. now rewrite existsb_app, C, H.
Qed.

Lemma detectMerging_effect o s :
  exists es,
    sent (detectMerging o s) = (sent s ++ es)%list /\
    existsb isComplete es = false /\
    polling (detectMerging o s) = polling s.
Proof.
  unfold detectMerging.
  destruct (includes o "[Merger]" || includes o "Merging formats");
    [destruct (negb (isMerging s))|].
  - eexists [_]. simpl. repeat split.
  - exists []. rewrite app_nil_r. repeat split.
  - exists []. rewrite app_nil_r. repeat split.
Qed.

Lemma detectError_effect o s :
  exists es,
    sent (detectError o s) = (sent s ++ es)%list /\
    existsb isComplete es = false /\
    polling (detectError o s) = polling s.
Proof.
  unfold detectError.
  destruct (includes o "ERROR:" || includes o "Conversion failed").
  - eexists [_]. simpl. repeat split.
  - exists []. rewrite app_nil_r. repeat split.
Qed.

Lemma step_preClose s c : isClose c = false -> preClose s -> preClose (step s c).
Proof.
  intros Hc P. destruct c as [o|o| |code| |m| | |]; simpl; try discriminate Hc.
  - unfold onStdout.
    destruct (runParser_effect o (detectMerging o s)) as (es & E & H & _ & Pl & _).
    eapply preClose_append; [exact E | exact H | exact Pl |].
    destruct (detectMerging_effect o s) as (es' & E' & H' & Pl').
    eapply preClose_append; eassumption.
  - unfold onStderr.
    destruct (runParser_effect o (detectMerging o (detectError o s)))
      as (es & E & H & _ & Pl & _).
    eapply preClose_append; [exact E | exact H | exact Pl |].
    destruct (detectMerging_effect o (detectError o s)) as (es' & E' & H' & Pl').
    eapply preClose_append; [exact E' | exact H' | exact Pl' |].
    destruct (detectError_effect o s) as (es'' & E'' & H'' & Pl'').
    eapply preClose_append; eassumption.
  - unfold onMergeTimer. destruct (mergeInterval s); [|exact P].
    eapply (preClose_append s _ [_]); [reflexivity | reflexivity | reflexivity | exact P].
  - unfold onPollTimer. destruct P as [Pp Pc]. rewrite Pp. now split.
  - unfold onProcError, removeTemp, fileExists.
    destruct (Fs.existsSync cwd _ tempFilePath);
      eapply (preClose_append s _ [_]);
      try reflexivity; exact P.
  - unfold Session.onReqClose, fileExists; simpl.
    destruct (negb (downloadSuccess s) && Fs.existsSync cwd (files s) tempFilePath);
      exact P.
  - exact P.
  - exact P.
Qed.

Lemma run_preClose cs : forall s,
  existsb isClose cs = false -> preClose s -> preClose (run s cs).
Proof.
  unfold Session.run.
  induction cs as [|c cs IH]; intros s H P; simpl; [exact P|].
  simpl in H. apply orb_false_iff in H. destruct H as [Hc Hcs].
  apply IH; [exact Hcs|]. now apply step_preClose.
Qed.

(** The exit handler has run on a response that held [base]: it
    still waits for the file, or it has sent its one event. *)
Definition closing (base : list sse) (s : session) : Prop :=
  (is_Some (polling s) /\ sent s = base)
  \/ (polling s = None /\ exists e, sent s = (base ++ [e])%list /\ isTerminal e = true).

Definition closed (base : list sse) (s : session) : Prop :=
  mergeInterval s = false /\ closing base s.

Lemma finishClose_closing s :
  closing (sent s) (finishClose s) /\
  mergeInterval (finishClose s) = mergeInterval s.
Proof.
  unfold Session.finishClose, fileExists. destruct s; simpl.
  destruct (Fs.existsSync cwd files0 tempFilePath); simpl;
    (split; [right; split; [reflexivity | eexists; split; reflexivity] | reflexivity]).
Qed.

Lemma pollFile_closing n s :
  closing (sent s) (pollFile n s) /\
  mergeInterval (pollFile n s) = mergeInterval s.
Proof.
  unfold Session.pollFile.
  destruct (negb (fileExists cwd tempFilePath s) && (n <? maxAttempts)%nat).
  - split; [left; simpl; split; [now eexists | reflexivity] | reflexivity].
  - apply finishClose_closing.
Qed.

Lemma onClose_closed code s : polling s = None -> closed (sent s) (onClose code s).
Proof.
  intros P. unfold Session.onClose, closed.
  assert (E : forall msg, closing (sent s)
              (clearMergeInterval
                 (resEnd (removeTemp cwd tempFilePath (send (EvError msg) s))))).
  { intros msg. right. unfold removeTemp, fileExists.
    destruct (Fs.existsSync cwd _ tempFilePath); simpl;
      (split; [exact P | eexists; split; reflexivity]). }
  split; [reflexivity|].
  destruct code as [[|[]|]|]; try apply E.
  destruct (pollFile_closing 0 s) as [[[Hp Hs] | (Hp & e & Hs & Ht)] _].
  - left. simpl. now split.
  - right. simpl. split; [exact Hp | now exists e].
Qed.

Lemma step_closed base s c :
  afterClose c = true -> closed base s -> closed base (step s c).
Proof.
  intros Hc [M C]. destruct c as [o|o| |code| |m| | |]; simpl; try discriminate Hc.
  - unfold onMergeTimer. rewrite M. now split.
  - unfold onPollTimer. destruct (polling s) as [a|] eqn:Pa; [|now split].
    destruct C as [[_ Hs] | [Hp _]]; [|congruence].
    destruct (pollFile_closing (S a) s) as [Hc' Hm].
    split; [now rewrite Hm|]. now rewrite <- Hs.
  - unfold Session.onReqClose, fileExists; simpl.
    destruct (negb (downloadSuccess s) && Fs.existsSync cwd (files s) tempFilePath);
      now split.
  - now split.
  - now split.
Qed.

Lemma run_closed base cs : forall s,
  forallb afterClose cs = true -> closed base s -> closed base (run s cs).
Proof.
  unfold Session.run.
  induction cs as [|c cs IH]; intros s H C; simpl; [exact C|].
  simpl in H. apply andb_prop in H. destruct H as [Hc Hcs].
  apply IH; [exact Hcs|]. now apply step_closed.
Qed.

(** C3 (as amended). Node delivering nothing more from a subprocess
    after its [close]: no [complete] event is sent before the
    subprocess exits, and from its exit on the handler sends at most
    one more event, a [complete] or an [error], and nothing after
    it. *)
Theorem exit_event_is_last (files0 : gset string)
    (pre : list callback) (code : option Z) (post : list callback) :
  existsb isClose pre = false ->
  forallb afterClose post = true ->
  let before := sent (run (start files0) pre) in
  existsb isComplete before = false
  /\ exists tail,
      sent (run (start files0) (pre ++ ProcClose code :: post)%list)
        = (before ++ tail)%list
      /\ (tail = [] \/ exists e, tail = [e] /\ isTerminal e = true).
Proof.
  intros Hpre Hpost before.
  assert (P : preClose (run (start files0) pre)).
  { apply run_preClose; [exact Hpre | now split]. }
  split; [apply P|].
  unfold Session.run. rewrite fold_left_app. simpl.
  fold (run (start files0) pre).
  set (s := run (start files0) pre) in *.
  destruct (run_closed (sent s) post (onClose code s) Hpost
              (onClose_closed code s (proj1 P))) as [_ [[_ Hs] | (_ & e & Hs & Ht)]].
  - exists []. rewrite app_nil_r. split; [exact Hs | now left].
  - exists [e]. split; [exact Hs | right; now exists e].
Qed.

End Handler.

(** C3, an instance: the download is written after the subprocess
    has exited, and [complete] closes the stream. *)
Lemma exit_event_is_last_witness :
  let run := Session.run "/app" "/app/downloads/1_v.mp4" "v.mp4" "1" in
  let pre := [StdoutData "[download]  50.0% of 10.00MiB at 1.00MiB/s ETA 00:05"] in
  let before := sent (run (Session.start "1" ∅) pre) in
  existsb isComplete before = false
  /\ exists tail,
      sent (run (Session.start "1" ∅)
              (pre ++ ProcClose (Some 0%Z) :: [FileWritten; PollTimer; ReqClose])%list)
        = (before ++ tail)%list
      /\ (tail = [] \/ exists e, tail = [e] /\ isTerminal e = true).
Proof.
  apply (exit_event_is_last "/app" "/app/downloads/1_v.mp4" "v.mp4" "1" ∅
           [StdoutData "[download]  50.0% of 10.00MiB at 1.00MiB/s ETA 00:05"]
           (Some 0%Z) [FileWritten; PollTimer; ReqClose]);
    reflexivity.
Defined.

(** C3, as stated, fails: the [error] event sent on an error marker
    in the standard error output is followed by a [progress] event and
    by the [error] event of the exit handler. *)
Lemma error_event_not_last :
  sent (Session.run "/app" "/app/downloads/1_v.mp4" "v.mp4" "1"
          (Session.start "1" ∅)
          [StderrData "ERROR: unable to download video data";
           StdoutData "[download]  50.0% of 10.00MiB at 1.00MiB/s ETA 00:05";
           ProcClose (Some 1%Z)])
  = [EvStart "1" "Download started"; EvProgress 0;
     EvError "Download failed during processing. File may be too large for available resources.";
     EvProgress 50;
     EvError "Download failed during merge. The file may be too large or storage is insufficient."].
Proof. vm_compute. reflexivity. Qed.

End SessionFacts.

(** ** The cleanup of the merged file *)

Module StreamDownloadFacts.
Import StreamDownload.

Section Cleanup.
Variable cwd : string.
Variable tempFilePath : string.

Local Abbreviation step := (StreamDownload.step cwd tempFilePath).
Local Abbreviation run := (StreamDownload.run cwd tempFilePath).





End Cleanup.

End StreamDownloadFacts.

(** ** The download-file handler *)

Module DownloadFileFacts.
Import JsString Negotiation DownloadFile.

(** C9, where the code departs from it: with the working directory
    [/app], a file of the directory [/app/downloads-old] passes the
    prefix test and is served, although it does not lie in
    [/app/downloads]. *)
Theorem sibling_directory_is_served :
  DOWNLOADS_DIR "/app" = "/app/downloads"
  /\ Path.normalize "/app/downloads-old/clip.mp4" = "/app/downloads-old/clip.mp4"
  /\ inside (DOWNLOADS_DIR "/app") "/app/downloads-old/clip.mp4" = false
  /\ handler "/app" "GET" (QStr "/app/downloads-old/clip.mp4") QAbsent true
       {[ "/app/downloads-old/clip.mp4" ]}
     = Piped "/app/downloads-old/clip.mp4" "video/mp4" "clip.mp4".
Proof. vm_compute. repeat split. Qed.

(** *** The cleanup of the served file *)

Section Cleanup.
Variable cwd : string.
Variable filePath : string.
Variable files0 : gset string.

Local Abbreviation step := (DownloadFile.step cwd filePath).
Local Abbreviation run := (DownloadFile.run cwd filePath).

Definition weight (t : timer) : nat :=
  match t with
  | TCleanup => 0
  | TWait => 2
  | TRetry => 1
  end.

(** The unlinks the pending timers can still make. *)
Definition pending (ts : list timer) : nat := list_sum (map weight ts).

Definition kept (s : server) : Prop :=
  started s = (if cleanupDone s then 1 else 0)%nat /\
  (pending (timers s) + unlinks s <= 2 * started s)%nat /\
  (cleanupDone s = false -> files s = files0).

Lemma pending_app a b : pending (a ++ b) = (pending a + pending b)%nat.
Proof. unfold pending. now rewrite List.map_app, list_sum_app. Qed.

Lemma pending_remove i : forall ts t,
  nth_error ts i = Some t -> pending ts = (weight t + pending (remove_nth i ts))%nat.
Proof.
  unfold pending.
  induction i as [|i IH]; intros [|x ts] t H; simpl in *; try discriminate.
  - now injection H as ->.
  - rewrite (IH ts t H). lia.
Qed.

Lemma cleanup_kept s : kept s -> kept (cleanup s).
Proof.
  unfold kept, cleanup. intros (S & P & F).
  destruct (cleanupDone s) eqn:D; simpl; [now rewrite D|].
  rewrite pending_app; simpl. unfold pending at 2; simpl.
  repeat split; [lia | lia | discriminate].
Qed.

Lemma later_kept s : kept s -> kept (later TCleanup s).
Proof.
  unfold kept, later; simpl. intros (S & P & F).
  rewrite pending_app. unfold pending at 2; simpl. repeat split; auto; lia.
Qed.

Lemma step_kept s cb : kept s -> kept (step s cb).
Proof.
  intros K. destruct cb as [ | | | | | |i ok]; simpl.
  - now apply cleanup_kept.
  - exact K.
  - destruct (streamEnded s); [now apply later_kept | exact K].
  - now apply later_kept.
  - destruct (negb (streamEnded s)); [now apply cleanup_kept | now apply later_kept].
  - destruct (negb (streamEnded s)); [now apply cleanup_kept | exact K].
  - unfold fire. destruct (nth_error (timers s) i) as [t|] eqn:E; [|exact K].
    pose proof (pending_remove i _ _ E) as R.
    destruct K as (S & P & F).
    destruct t; simpl in R.
    + apply cleanup_kept. unfold kept; simpl. repeat split; auto. lia.
    + unfold tryUnlink; simpl.
      destruct (Fs.existsSync cwd (files s) filePath); unfold kept; simpl.
      * destruct (cleanupDone s) eqn:D; [|lia].
        repeat split; auto; [|discriminate].
        destruct (negb ok && true); rewrite ?pending_app; unfold pending in *; simpl in *; lia.
      * repeat split; auto. lia.
    + unfold tryUnlink; simpl.
      destruct (Fs.existsSync cwd (files s) filePath); unfold kept; simpl.
      * destruct (cleanupDone s) eqn:D; [|lia].
        repeat split; auto; [|discriminate].
        rewrite andb_false_r. lia.
      * repeat split; auto. lia.
Qed.

Lemma run_kept cbs : forall s, kept s -> kept (run s cbs).
Proof.
  unfold DownloadFile.run.
  induction cbs as [|cb cbs IH]; intros s K; simpl; [exact K|].
  apply IH, step_kept, K.
Qed.

End Cleanup.

End DownloadFileFacts.

(** ** The two cleanups together *)

Module CleanupFacts.
Import StreamDownloadFacts DownloadFileFacts.



End CleanupFacts.

(** * Further properties *)

(** ** Where a pattern matches *)

Module RegexMore.
Import JsString Regex RegexFacts.

Lemma startsWith_append p x : startsWith (p ++ x) p = true.
Proof.
  induction p as [|c p IH]; simpl; [now destruct x|].
  now rewrite Ascii.eqb_refl.
Qed.

Lemma includes_unfold s p :
  includes s p = startsWith s p ||
                 match s with
                 | EmptyString => false
                 | String _ s' => includes s' p
                 end.
Proof. now destruct s. Qed.

Lemma includes_append pre p post : includes (pre ++ p ++ post) p = true.
Proof.
  induction pre as [|c pre IH]; simpl.
  - now rewrite includes_unfold, startsWith_append.
  - rewrite IH. apply orb_true_r.
Qed.

Lemma match_here_located ci r s cs :
  match_here ci r s = Some cs -> exists u post, s = u ++ post /\ Match ci r u [] cs.
Proof.
  unfold match_here. intros H. apply exec_sound in H.
  destruct H as (u & s' & cs' & -> & M & E). inversion E; subst. now exists u, s'.
Qed.

Lemma str_match_located ci r s cs :
  str_match ci r s = Some cs ->
  exists pre u post, s = pre ++ u ++ post /\ Match ci r u [] cs.
Proof.
  induction s as [|c s IH]; simpl; intros H.
  - destruct (match_here ci r EmptyString) eqn:E; [|discriminate].
    inversion H; subst. apply match_here_located in E.
    destruct E as (u & post & E & M). now exists EmptyString, u, post.
  - destruct (match_here ci r (String c s)) eqn:E.
    + inversion H; subst. apply match_here_located in E.
      destruct E as (u & post & E & M). now exists EmptyString, u, post.
    + destruct (IH H) as (pre & u & post & -> & M).
      now exists (String c pre), u, post.
Qed.

Lemma chr_eq_exact c a : chr_eq false c a = true -> a = c.
Proof. unfold chr_eq. intros H. apply Ascii.eqb_eq in H. now subst. Qed.

End RegexMore.

(** ** More on the progress parser *)

Module ProgressMore.
Import JsString Regex JsNumber Progress RegexFacts RegexMore Binary64Facts ProgressFacts.

Local Open Scope Q_scope.

(** X5. A text is read as a progress line only if it contains the tag
    [[download]]: what the subprocess prints otherwise (warnings,
    post-processing messages, a bare percentage) leaves the tracker
    alone and sends nothing. *)
Theorem progress_line_needs_tag (t : tracker) (output : string) :
  includes output "[download]" = false ->
  parseLine output = None /\ parseProgress t output = (t, []).
Proof.
  intros H.
  assert (N : parseLine output = None).
  { unfold parseLine.
    destruct (str_match false progressRe output) as [pm|] eqn:E; [|reflexivity].
    exfalso. apply str_match_located in E.
    destruct E as (pre & u & post & -> & M).
    unfold progressRe in M. inversion M as [| |r1 r2 u1 v1 c0 c1 c2 M1 M2| | | | | |]; subst.
    clear M M2. simpl in M1.
    repeat match goal with
      | H : Match _ (RSeq _ _) _ _ _ |- _ => inversion H; subst; clear H
      | H : Match _ (RChar _) _ _ _ |- _ => inversion H; subst; clear H
      end.
    repeat match goal with
      | H : chr_eq false _ _ = true |- _ => apply chr_eq_exact in H; subst
      end.
    simpl in H.
    change (includes (pre ++ "[download]" ++ (v1 ++ post)) "[download]" = false) in H
      || (rewrite append_assoc in H; simpl in H).
    rewrite includes_append in H. discriminate. }
  split; [exact N|]. unfold parseProgress. now rewrite N.
Qed.

Lemma progress_line_needs_tag_witness :
  parseLine "45.5% of 50.00MiB at 2.50MiB/s ETA 00:10" = None
  /\ parseProgress tracker0 "45.5% of 50.00MiB at 2.50MiB/s ETA 00:10" = (tracker0, []).
Proof.
  apply (progress_line_needs_tag tracker0 "45.5% of 50.00MiB at 2.50MiB/s ETA 00:10").
  reflexivity.
Defined.

(** *** One stream *)

Lemma update_complete t p size :
  firstFileComplete (update t p size) = firstFileComplete (observeSize t size)
  /\ firstFileSize (update t p size) = firstFileSize (observeSize t size)
  /\ currentFileProgress (update t p size) = p
  /\ lastSentProgress (update t p size) = lastSentProgress t.
Proof.
  unfold update, setProgress; simpl. repeat split.
  unfold observeSize. destruct (eqb (firstFileSize t) 0); [reflexivity|].
  now destruct (negb (firstFileComplete t) && _)%bool.
Qed.



(** *** Two streams at most *)

Lemma parseProgress_frozen t output :
  Inv t -> firstFileComplete t = true ->
  let t' := fst (parseProgress t output) in
  firstFileComplete t' = true /\ firstFileSize t' = firstFileSize t
  /\ secondFileSize t' = secondFileSize t /\ accumulatedMB t' = accumulatedMB t.
Proof.
  intros I C. unfold parseProgress.
  destruct (parseLine output) as [[p size]|]; [|now repeat split].
  destruct (emit_fields (update t p size)) as (F1 & F2 & _ & F4 & F5).
  simpl. rewrite F1, F2, F4, F5. unfold update.
  rewrite observeSize_complete; [|exact I|exact C]. now repeat split.
Qed.

(** X7. Once a second size has been recorded the sizes are settled: no
    later line, whatever size it reports, changes the first size, the
    second size or the banked megabytes. *)
Theorem sizes_settle_after_second_stream (outputs more : list string) :
  let t := fst (feed tracker0 outputs) in
  let t' := fst (feed t more) in
  firstFileComplete t = true ->
  firstFileComplete t' = true /\ firstFileSize t' = firstFileSize t
  /\ secondFileSize t' = secondFileSize t /\ accumulatedMB t' = accumulatedMB t.
Proof.
  intros t t' C. subst t'.
  assert (I : Inv t) by (apply feed_inv, Inv_tracker0).
  clearbody t. revert t C I.
  induction more as [|o os IH]; intros t C I; simpl; [now repeat split|].
  pose proof (parseProgress_frozen t o I C) as F.
  pose proof (parseProgress_inv t o I) as I1.
  destruct (parseProgress t o) as [t1 e1]. simpl in F, I1.
  destruct F as (C1 & F1 & F2 & F3).
  specialize (IH t1 C1 I1).
  destruct (feed t1 os) as [t2 e2]. simpl in *.
  destruct IH as (-> & -> & -> & ->). now repeat split.
Qed.

Lemma sizes_settle_after_second_stream_witness :
  let t := fst (feed tracker0 ["[download] 100.0% of 10.00MiB at 2.50MiB/s ETA 00:00";
                               "[download]   0.0% of 90.00MiB at 2.50MiB/s ETA 00:36"]) in
  let t' := fst (feed t ["[download]  10.0% of 700.00MiB at 2.50MiB/s ETA 04:12"]) in
  firstFileComplete t' = true /\ firstFileSize t' = firstFileSize t
  /\ secondFileSize t' = secondFileSize t /\ accumulatedMB t' = accumulatedMB t.
Proof.
  apply (sizes_settle_after_second_stream
           ["[download] 100.0% of 10.00MiB at 2.50MiB/s ETA 00:00";
            "[download]   0.0% of 90.00MiB at 2.50MiB/s ETA 00:36"]
           ["[download]  10.0% of 700.00MiB at 2.50MiB/s ETA 04:12"]).
  reflexivity.
Defined.

(** The sizes 3.50 MB and 3.40 MB differ by one tenth, which is not
    more than the tolerance; their binary64 values differ by
    0.10000000000000009, which is more than the binary64 value of 0.1,
    and the second line is read as the start of a second stream. *)
Lemma tenth_apart_is_a_second_stream :
  let t := fst (feed tracker0 ["[download]   1.0% of 3.50MiB at 2.50MiB/s ETA 00:01";
                               "[download]   2.0% of 3.40MiB at 2.50MiB/s ETA 00:01"]) in
  (firstFileComplete t = true /\ firstFileSize t = parseFloat "3.50"
   /\ secondFileSize t = parseFloat "3.40")
  /\ ~ (1 # 10 < Qabs ((34 # 10) - (35 # 10)))
  /\ round64 (1 # 10) < abs (fsub (parseFloat "3.40") (parseFloat "3.50")).
Proof.
  split; [vm_compute; repeat split|]. split; [|vm_compute; reflexivity].
  vm_compute. discriminate.
Qed.

(** *** The range of the events *)

(** No output reports more than 100%. *)
Definition within100 (outputs : list string) : bool :=
  forallb (fun o => match parseLine o with
                    | Some (p, _) => Qle_bool p 100
                    | None => true
                    end) outputs.

Lemma parseProgress_bounded t output :
  Inv t -> within100 [output] = true ->
  let (t', evs) := parseProgress t output in
  (evs = [] /\ lastSentProgress t' = lastSentProgress t)
  \/ (exists combined,
        evs = [EvProgress (floor combined)] /\
        (floor (lastSentProgress t) < floor combined)%Z /\
        lastSentProgress t' = combined /\ (floor combined <= 100)%Z).
Proof.
  intros I W. unfold within100 in W; simpl in W. rewrite andb_true_r in W.
  unfold parseProgress.
  destruct (parseLine output) as [[p size]|] eqn:E; [|now left].
  apply Qle_bool_iff in W.
  destruct (parseLine_nonneg _ _ _ E) as [Hp Hsize].
  pose proof (update_inv t p size I Hsize) as Iu.
  destruct (update_complete t p size) as (_ & _ & Hcur & L).
  assert (R : 0 <= combinedProgress (update t p size)
              /\ combinedProgress (update t p size) <= 100 * (1 + eps)).
  { apply combined_range; [exact Iu | now rewrite Hcur | now rewrite Hcur]. }
  unfold emit. rewrite L.
  destruct (floor (lastSentProgress t) <? floor (combinedProgress (update t p size)))%Z eqn:F.
  - right. exists (combinedProgress (update t p size)).
    apply Z.ltb_lt in F. repeat split; auto.
    destruct R as [R0 R1]. now apply floor_range.
  - left. split; [reflexivity | exact L].
Qed.

Lemma feed_bounded outputs : forall t,
  Inv t -> within100 outputs = true ->
  exists ns : list Z,
    snd (feed t outputs) = map EvProgress ns /\
    StronglySorted Z.lt (floor (lastSentProgress t) :: ns) /\
    Forall (fun n => (n <= 100)%Z) ns.
Proof.
  induction outputs as [|o os IH]; intros t I W; simpl.
  - exists []. repeat split; repeat constructor.
  - unfold within100 in W; simpl in W. apply andb_prop in W. destruct W as [Wo Ws].
    assert (Wo' : within100 [o] = true) by (unfold within100; simpl; now rewrite Wo).
    pose proof (parseProgress_bounded t o I Wo') as S.
    pose proof (parseProgress_inv t o I) as I1.
    destruct (parseProgress t o) as [t1 e1]. simpl in I1.
    destruct (IH t1 I1 Ws) as (ns & Hns & Hsorted & Hle).
    destruct (feed t1 os) as [t2 e2]. simpl in Hns. simpl. subst e2.
    destruct S as [[-> L] | (combined & -> & Hlt & L & H100)].
    + exists ns. rewrite <- L. now repeat split.
    + exists (floor combined :: ns). rewrite L in Hsorted.
      split; [reflexivity|]. split; [|now constructor].
      constructor; [exact Hsorted|].
      inversion Hsorted as [|? ? _ Hall]; subst.
      constructor; [exact Hlt|].
      revert Hall. apply List.Forall_impl. intros a Ha. lia.
Qed.

(** X8. As long as the subprocess reports no more than 100%, every
    [progress] event the parser sends carries a whole number from 1 to
    100 (the 0 is sent by the handler before the subprocess starts). *)
Theorem progress_events_in_range (outputs : list string) (n : Z) :
  within100 outputs = true ->
  In (EvProgress n) (snd (feed tracker0 outputs)) ->
  (1 <= n <= 100)%Z.
Proof.
  intros W Hin.
  destruct (feed_bounded outputs tracker0 Inv_tracker0 W) as (ns & E & Hsorted & Hle).
  rewrite E in Hin. apply in_map_iff in Hin. destruct Hin as (m & [= ->] & Hm).
  assert (H0 : floor (lastSentProgress tracker0) = 0%Z) by reflexivity.
  rewrite H0 in Hsorted.
  inversion Hsorted as [|? ? _ Hall]; subst.
  rewrite List.Forall_forall in Hall, Hle.
  specialize (Hall _ Hm). specialize (Hle _ Hm).
  cbv beta in Hle. lia.
Qed.

Lemma progress_events_in_range_witness : (1 <= 45 <= 100)%Z.
Proof.
  apply (progress_events_in_range
           ["[download]  45.5% of 50.00MiB at 2.50MiB/s ETA 00:10"] 45).
  - vm_compute. reflexivity.
  - vm_compute. left. reflexivity.
Defined.

(** X9. Once 100 has been sent nothing follows it while the subprocess
    reports no more than 100%. *)
Theorem progress_stops_at_100 (outputs : list string) (l1 l2 : list sse) :
  within100 outputs = true ->
  snd (feed tracker0 outputs) = (l1 ++ EvProgress 100 :: l2)%list ->
  l2 = [].
Proof.
  intros W E.
  destruct (feed_bounded outputs tracker0 Inv_tracker0 W) as (ns & Ens & Hsorted & Hle).
  rewrite Ens in E. apply List.map_eq_app in E.
  destruct E as (n1 & n2 & -> & _ & E2).
  destruct n2 as [|m n2]; [discriminate|]. simpl in E2.
  injection E2 as Hm E2. subst m.
  destruct n2 as [|k n2]; [now destruct l2|]. exfalso.
  apply StronglySorted_inv in Hsorted. destruct Hsorted as [Hsorted _].
  assert (Hk : (k <= 100)%Z).
  { rewrite List.Forall_forall in Hle. apply Hle.
    apply in_or_app. right. right. now left. }
  clear - Hsorted Hk.
  induction n1 as [|a n1 IH]; simpl in Hsorted.
  - apply StronglySorted_inv in Hsorted. destruct Hsorted as [_ H].
    inversion H; subst. lia.
  - apply StronglySorted_inv in Hsorted. destruct Hsorted as [H _]. now apply IH.
Qed.

Lemma progress_stops_at_100_witness :
  let outputs := ["[download] 100.0% of 10.00MiB at 2.50MiB/s ETA 00:00";
                  "[download]  50.0% of 90.00MiB at 2.50MiB/s ETA 00:18";
                  "[download] 100.0% of 90.00MiB at 2.50MiB/s ETA 00:00"] in
  within100 outputs = true
  /\ snd (feed tracker0 outputs) = ([] ++ EvProgress 100 :: [])%list
  /\ @nil sse = [].
Proof.
  intros outputs. split; [reflexivity|]. split; [reflexivity|].
  apply (progress_stops_at_100 outputs [] []); reflexivity.
Defined.

(** *** Every whole percent is reported *)

Lemma floor_step x y : x + 1 <= y -> (floor x < floor y)%Z.
Proof.
  unfold floor. intros H.
  pose proof (Qfloor_le x) as Hx. pose proof (Qlt_floor y) as Hy.
  assert (L : inject_Z (Qfloor x) + 1 < inject_Z (Qfloor y + 1)) by lra.
  rewrite inject_Z_plus in L.
  assert (L' : inject_Z (Qfloor x) < inject_Z (Qfloor y)).
  { change (inject_Z 1) with 1 in L. lra. }
  now rewrite <- Zlt_Qlt in L'.
Qed.

(** X10. A progress line that puts the combined percentage one percent or
    more above the value sent last is answered with a [progress] event
    carrying its floor, which becomes the value sent last. *)
Theorem progress_sent_on_whole_percent (t : tracker) (output : string) (p size : Q) :
  parseLine output = Some (p, size) ->
  let combined := combinedProgress (update t p size) in
  lastSentProgress t + 1 <= combined ->
  snd (parseProgress t output) = [EvProgress (floor combined)]
  /\ lastSentProgress (fst (parseProgress t output)) = combined.
Proof.
  intros E combined H. unfold parseProgress. rewrite E. unfold emit.
  destruct (update_complete t p size) as (_ & _ & _ & L).
  rewrite L. fold combined.
  apply floor_step in H. apply Z.ltb_lt in H. rewrite H. now split.
Qed.

Lemma progress_sent_on_whole_percent_witness :
  let t := fst (feed tracker0 ["[download]  45.5% of 50.00MiB at 2.50MiB/s ETA 00:10"]) in
  let output := "[download]  46.6% of 50.00MiB at 2.50MiB/s ETA 00:09" in
  snd (parseProgress t output) = [EvProgress 46]
  /\ lastSentProgress (fst (parseProgress t output))
     = combinedProgress (update t (parseFloat "46.6") 50).
Proof.
  apply (progress_sent_on_whole_percent
           (fst (feed tracker0 ["[download]  45.5% of 50.00MiB at 2.50MiB/s ETA 00:10"]))
           "[download]  46.6% of 50.00MiB at 2.50MiB/s ETA 00:09" (parseFloat "46.6") 50).
  - vm_compute. reflexivity.
  - vm_compute. discriminate.
Defined.

End ProgressMore.

(** ** More on the credential resolver and the execution wrapper *)

Module CookiesMore.
Import JsString Cookies CookiesFacts.

(** X1. The resolver returns a file that exists, [youtube-cookies.txt]
    before [cookies.txt], and nothing only when neither exists. *)
Theorem getCookiesFilePath_prefers_youtube (cwd : string) (files : gset string) :
  let first := Path.join cwd "youtube-cookies.txt" in
  let second := Path.join cwd "cookies.txt" in
  match getCookiesFilePath cwd files with
  | Some p =>
      Fs.existsSync cwd files p = true /\
      (p = first \/ (p = second /\ Fs.existsSync cwd files first = false))
  | None =>
      Fs.existsSync cwd files first = false /\ Fs.existsSync cwd files second = false
  end
  /\ hasCookiesFile cwd files
     = (Fs.existsSync cwd files first || Fs.existsSync cwd files second).
Proof.
  unfold hasCookiesFile, getCookiesFilePath, possiblePaths; simpl.
  destruct (Fs.existsSync cwd files (Path.join cwd "youtube-cookies.txt")) eqn:E1.
  - repeat split; auto.
  - destruct (Fs.existsSync cwd files (Path.join cwd "cookies.txt")) eqn:E2;
      repeat split; auto.
Qed.

(** X2. The cookie arguments go in front of the last argument, which stays
    last; without cookie arguments the command is unchanged; and for an
    empty argument list the list built ends in [undefined]. *)
Theorem argsWithCookies_keeps_last (init : list string) (url : string)
    (cookiesArgs : list string) :
  argsWithCookies (init ++ [url]) cookiesArgs
    = (map Some init ++ map Some cookiesArgs ++ [Some url])%list
  /\ argsWithCookies (init ++ [url]) [] = map Some (init ++ [url])%list
  /\ argsWithCookies [] cookiesArgs = (map Some cookiesArgs ++ [None])%list.
Proof.
  assert (E : forall cs, argsWithCookies (init ++ [url]) cs
                = (map Some init ++ map Some cs ++ [Some url])%list).
  { intros cs. unfold argsWithCookies, lastArg.
    rewrite List.removelast_last, List.map_app; simpl.
    now rewrite List.last_last. }
  split; [apply E|]. split; [|reflexivity].
  rewrite E, List.map_app. reflexivity.
Qed.

Ltac wrapper_case :=
  split; [rewrite <- ?app_assoc; reflexivity|];
  split; [simpl; lia|];
  split;
  [ repeat (apply List.Forall_cons;
            [split; [reflexivity
                    | first [left; reflexivity | right; eexists; reflexivity]]|]);
    apply List.Forall_nil
  | intros r H U;
    first [discriminate H
          | inversion H; subst; first [discriminate U | reflexivity]] ].

Section Wrapper.
Variable World : Type.
Variable cwd : string.
Variable files : World -> gset string.
Variable run : string -> list arg -> World -> outcome string * World.

Let exec := executeWithCookieRetry World cwd files run.

(** X3. Without a cookies file the command runs as given; a success is
    returned with [usedCookies = false], and a failure whose message
    names no sign-in, bot or availability problem, or that still finds
    no cookies file, is thrown on unchanged. The command has then run
    exactly once. *)
Theorem uncredentialed_run (w w1 : World) (log : list call)
    (command : string) (args : list string) (r : outcome string) :
  hasCookiesFile cwd (files w) = false ->
  run command (map Some args) w = (r, w1) ->
  match r with
  | Resolved out =>
      exec command args (w, log) =
        (Resolved {| output := out; usedCookies := false |},
         (w1, (log ++ [(command, map Some args)])%list))
  | Rejected e =>
      needsAuth e && hasCookiesFile cwd (files w1) = false ->
      exec command args (w, log) =
        (Rejected e, (w1, (log ++ [(command, map Some args)])%list))
  end.
Proof.
  intros Hc H1.
  unfold exec, executeWithCookieRetry, bind, try, look, ret, throw, executeCommand; simpl.
  rewrite Hc; simpl. rewrite H1.
  destruct r as [out|e]; simpl; [reflexivity|].
  intros ->. reflexivity.
Qed.

(** X4. Whatever the environment does, the wrapper executes the command
    once or twice, always the command it was given, each time with the
    caller's arguments or with cookie arguments inserted into them; and
    a result with [usedCookies = false] comes from a last run with
    exactly the caller's arguments. *)
Theorem wrapper_runs_at_most_twice (w : World) (log : list call)
    (command : string) (args : list string) :
  exists calls : list call,
    snd (snd (exec command args (w, log))) = (log ++ calls)%list
    /\ (1 <= length calls <= 2)%nat
    /\ Forall (fun c => fst c = command /\
                        (snd c = map Some args \/
                         exists cs, snd c = argsWithCookies args cs)) calls
    /\ (forall r, fst (exec command args (w, log)) = Resolved r ->
                  usedCookies r = false ->
                  option_map snd (List.last (map Some calls) None) = Some (map Some args)).
Proof.
  unfold exec, executeWithCookieRetry, bind, try, look, ret, throw, executeCommand; simpl.
  destruct (hasCookiesFile cwd (files w)); simpl.
  - destruct (run command (argsWithCookies args (getCookiesArgs cwd (files w) true)) w)
      as [[out|e] w1] eqn:R1; simpl.
    + exists [(command, argsWithCookies args (getCookiesArgs cwd (files w) true))].
      wrapper_case.
    + destruct (run command (map Some args) w1) as [[out|e2] w2] eqn:R2; simpl;
        exists [(command, argsWithCookies args (getCookiesArgs cwd (files w) true));
                (command, map Some args)];
        wrapper_case.
  - destruct (run command (map Some args) w) as [[out|e] w1] eqn:R1; simpl.
    + exists [(command, map Some args)]. wrapper_case.
    + destruct (needsAuth e && hasCookiesFile cwd (files w1)); simpl.
      * destruct (run command (argsWithCookies args (getCookiesArgs cwd (files w1) true)) w1)
          as [[out|e2] w2] eqn:R2; simpl;
          exists [(command, map Some args);
                  (command, argsWithCookies args (getCookiesArgs cwd (files w1) true))];
          wrapper_case.
      * exists [(command, map Some args)]. wrapper_case.
Qed.
End Wrapper.

(** An environment without cookies in which the run fails for a reason
    that is not about signing in. *)
Definition unreachable (command : string) (args : list arg) (w : unit)
  : outcome string * unit :=
  (Rejected "Command failed: ERROR: Unable to download webpage", w).

Lemma uncredentialed_run_witness :
  executeWithCookieRetry unit "/app" (fun _ => ∅) unreachable
    "yt-dlp" ["-F"; "--no-warnings"; "https://example.org/v"] (tt, [])
  = (Rejected "Command failed: ERROR: Unable to download webpage",
     (tt, [("yt-dlp", [Some "-F"; Some "--no-warnings"; Some "https://example.org/v"])])).
Proof.
  refine (uncredentialed_run unit "/app" (fun _ => ∅) unreachable tt tt []
            "yt-dlp" ["-F"; "--no-warnings"; "https://example.org/v"]
            (Rejected "Command failed: ERROR: Unable to download webpage") _ _ _);
    vm_compute; reflexivity.
Defined.

End CookiesMore.

(** ** More on the format decision *)

Module NegotiationMore.
Import JsString Negotiation RegexFacts.

(** All characters of a string satisfy [p]. *)
Fixpoint all (p : ascii -> bool) (s : string) : bool :=
  match s with
  | EmptyString => true
  | String c s' => p c && all p s'
  end.

(** Letters, digits, underscore and hyphen. *)
Definition safe (c : ascii) : bool := is_word c || (code c =? 45)%N.

Lemma all_take p n : forall s, all p s = true -> all p (take n s) = true.
Proof.
  induction n as [|n IH]; intros [|c s]; simpl; auto.
  intros H. apply andb_prop in H. destruct H as [-> H]. now apply IH.
Qed.

Lemma length_take n : forall s, (String.length (take n s) <= n)%nat.
Proof.
  induction n as [|n IH]; intros [|c s]; simpl; try lia.
  specialize (IH s). lia.
Qed.

Lemma all_filter p s : all p (filter p s) = true.
Proof.
  induction s as [|c s IH]; simpl; [reflexivity|].
  destruct (p c) eqn:E; simpl; [now rewrite E|exact IH].
Qed.

Lemma all_underscoreSpaces s : forall inRun,
  all (fun c => is_word c || is_space c || (code c =? 45)%N) s = true ->
  all safe (underscoreSpaces inRun s) = true.
Proof.
  induction s as [|c s IH]; intros inRun H; simpl in *; [reflexivity|].
  apply andb_prop in H. destruct H as [Hc H].
  destruct (is_space c) eqn:Sp.
  - destruct inRun; simpl; auto.
  - simpl. rewrite (IH false H), andb_true_r.
    unfold safe. now rewrite orb_false_r in Hc.
Qed.

(** X11. The title put into the file name has at most 100 characters, all
    of them letters, digits, underscores or hyphens: no slash, dot,
    quote or white space of the title reaches the staging path or the
    name offered to the browser. *)
Theorem sanitizeTitle_safe (title : option string) :
  (String.length (sanitizeTitle title) <= 100)%nat
  /\ all safe (sanitizeTitle title) = true
  /\ sanitizeTitle None = "video"
  /\ sanitizeTitle (Some "") = "video".
Proof.
  split; [apply length_take|]. split; [|split; reflexivity].
  unfold sanitizeTitle. apply all_take, all_underscoreSpaces, all_filter.
Qed.

Lemma append_eq_self (a b : string) : a ++ b = a -> b = "".
Proof.
  intros H. assert (L : String.length (a ++ b) = String.length a) by now rewrite H.
  rewrite length_append in L. destruct b; [reflexivity|simpl in L; lia].
Qed.

(** X12. Whatever the inspection gave, the format is requested with
    [+bestaudio] exactly when it was found to have no audio; and in the
    fallback an identifier taken for audio-only is requested as it
    is. *)
Theorem bestaudio_iff_no_audio (formatId : string) (isCombined : queryValue)
    (i : inspection) :
  let d := decide formatId isCombined i in
  (formatToDownload d = formatId ++ "+bestaudio" <-> hasAudio d = false)
  /\ (formatToDownload d = formatId <-> hasAudio d = true)
  /\ isAudio (decide formatId isCombined InspectionFailed)
     && negb (hasAudio (decide formatId isCombined InspectionFailed)) = false.
Proof.
  assert (N : formatId ++ "+bestaudio" <> formatId).
  { intros E. apply append_eq_self in E. discriminate. }
  split; [|split].
  - unfold decide. destruct i as [a v|]; simpl.
    + destruct (truthy a && negb (isStr a "none")); simpl; split; congruence.
    + destruct (isTrue isCombined || _); simpl; split; congruence.
  - unfold decide. destruct i as [a v|]; simpl.
    + destruct (truthy a && negb (isStr a "none")); simpl; split; congruence.
    + destruct (isTrue isCombined || _); simpl; split; congruence.
  - unfold decide; simpl.
    destruct (includes formatId "251" || includes formatId "140"); simpl;
      [now rewrite orb_true_r | reflexivity].
Qed.

(** X13. The subprocess is always given the resource as its last argument,
    the staging path with [-o] just before it, and the cookie arguments
    before the format selection. *)
Theorem downloadArgs_shape (d : decision) (ffmpeg : string) (cookiesArgs : list string)
    (tempFilePath url : string) :
  exists pre mid : list string,
    downloadArgs d ffmpeg cookiesArgs tempFilePath url
      = (pre ++ cookiesArgs ++ ["-f"; formatToDownload d] ++ mid
         ++ ["-o"; tempFilePath; url])%list
    /\ (if isAudio d then pre = ["--no-warnings"; "--newline"; "--progress"] /\ mid = []
        else pre = ["--no-warnings"; "--newline"; "--progress"; "--ffmpeg-location"; ffmpeg]
             /\ In "mp4" mid)
    /\ List.last (downloadArgs d ffmpeg cookiesArgs tempFilePath url) "" = url.
Proof.
  unfold downloadArgs. destruct (isAudio d); [|destruct (hasAudio d)].
  - exists ["--no-warnings"; "--newline"; "--progress"], [].
    split; [reflexivity|]. split; [now split|].
    rewrite !List.app_assoc.
    change ["-f"; formatToDownload d; "-o"; tempFilePath; url]
      with (["-f"; formatToDownload d; "-o"; tempFilePath] ++ [url])%list.
    rewrite List.app_assoc. apply List.last_last.
  - eexists [_; _; _; _; _], [_; _; _; _].
    split; [reflexivity|]. split; [split; [reflexivity | simpl; auto]|].
    match goal with |- List.last (?a ++ ?b ++ ?c) _ = _ =>
      change c with (List.removelast c ++ [url])%list end.
    rewrite !List.app_assoc. apply List.last_last.
  - eexists [_; _; _; _; _], [_; _; _; _; _; _; _].
    split; [reflexivity|]. split; [split; [reflexivity | simpl; auto]|].
    match goal with |- List.last (?a ++ ?b ++ ?c) _ = _ =>
      change c with (List.removelast c ++ [url])%list end.
    rewrite !List.app_assoc. apply List.last_last.
Qed.

End NegotiationMore.

(** ** More on the event-stream session *)

Module SessionMore.
Import JsString Progress Session ProgressFacts SessionFacts.

Section Handler.
Variable cwd : string.
Variable tempFilePath : string.
Variable filename : string.
Variable downloadId : string.

Local Abbreviation step := (Session.step cwd tempFilePath filename downloadId).
Local Abbreviation run := (Session.run cwd tempFilePath filename downloadId).
Local Abbreviation onClose := (Session.onClose cwd tempFilePath filename downloadId).
Local Abbreviation pollFile := (Session.pollFile cwd tempFilePath filename downloadId).
Local Abbreviation finishClose := (Session.finishClose cwd tempFilePath filename downloadId).
Local Abbreviation start := (Session.start downloadId).

Definition isProgress (e : sse) : bool :=
  match e with
  | EvProgress _ => true
  | _ => false
  end.

(** The parser changes the tracker and sends [progress] events; it
    leaves everything else alone. *)
Lemma runParser_frame output s :
  exists t es,
    forallb isProgress es = true /\
    runParser output s =
      {| trk := t; isMerging := isMerging s; mergeInterval := mergeInterval s;
         downloadSuccess := downloadSuccess s; killed := killed s; ended := ended s;
         polling := polling s; files := files s; sent := (sent s ++ es)%list |}.
Proof.
  unfold runParser.
  pose proof (parseProgress_step (trk s) output) as S.
  destruct (parseProgress (trk s) output) as [t es].
  exists t, es.
  destruct S as [[-> _] | (c & -> & _)]; simpl; split; auto.
  now rewrite app_nil_r.
Qed.

Ltac parser_frame o s :=
  let t := fresh "t" in
  let es := fresh "es" in
  let Hes := fresh "Hes" in
  let E := fresh "E" in
  destruct (runParser_frame o s) as (t & es & Hes & E); rewrite E; clear E.

(** *** The merge announcement *)

Definition isAnnouncement (e : sse) : bool :=
  match e with
  | EvMerging m =>
      String.eqb m "Merging video and audio... This may take a while for large files."
  | _ => false
  end.

Definition isHeartbeat (e : sse) : bool :=
  match e with
  | EvMerging m => String.eqb m "Still merging... Please wait."
  | _ => false
  end.

Definition announcements (s : session) : nat :=
  length (List.filter isAnnouncement (sent s)).

Definition announced (s : session) : Prop :=
  announcements s = (if isMerging s then 1 else 0)%nat /\
  (mergeInterval s = true -> isMerging s = true) /\
  (existsb isHeartbeat (sent s) = true -> isMerging s = true).

Lemma progress_neutral es :
  forallb isProgress es = true ->
  List.filter isAnnouncement es = [] /\ existsb isHeartbeat es = false.
Proof.
  induction es as [|e es IH]; simpl; [auto|].
  intros H. apply andb_prop in H. destruct H as [He H].
  destruct e; try discriminate He. simpl. now apply IH.
Qed.

Lemma announced_append s s' es :
  sent s' = (sent s ++ es)%list ->
  List.filter isAnnouncement es = [] -> existsb isHeartbeat es = false ->
  isMerging s' = isMerging s ->
  (mergeInterval s' = true -> mergeInterval s = true) ->
  announced s -> announced s'.
Proof.
  unfold announced, announcements. intros -> Ha Hh -> Hm (A & M & B).
  rewrite List.filter_app, Ha, app_nil_r, existsb_app, Hh, orb_false_r. auto.
Qed.

Lemma detectMerging_announced o s : announced s -> announced (detectMerging o s).
Proof.
  intros HA. unfold detectMerging.
  destruct (includes o "[Merger]" || includes o "Merging formats"); [|exact HA].
  destruct (isMerging s) eqn:E; simpl; [exact HA|].
  destruct HA as (A & M & B).
  unfold announced, announcements in *; simpl.
  rewrite E in A. rewrite List.filter_app, length_app, A. simpl. repeat split.
Qed.

Lemma step_announced s c : announced s -> announced (step s c).
Proof.
  intros A. destruct c as [o|o| |code| |m| | |]; simpl.
  - unfold onStdout. parser_frame o (detectMerging o s).
    destruct (progress_neutral _ Hes) as [Ha Hh].
    eapply (announced_append (detectMerging o s)); simpl; eauto.
    now apply detectMerging_announced.
  - unfold onStderr. parser_frame o (detectMerging o (detectError o s)).
    destruct (progress_neutral _ Hes) as [Ha Hh].
    eapply (announced_append (detectMerging o (detectError o s))); simpl; eauto.
    apply detectMerging_announced. unfold detectError.
    destruct (includes o "ERROR:" || includes o "Conversion failed"); [|exact A].
    eapply (announced_append s _ [_]); simpl; eauto.
  - unfold onMergeTimer. destruct (mergeInterval s) eqn:E; [|exact A].
    destruct A as (A & M & B). unfold announced, announcements in *; simpl.
    rewrite List.filter_app, app_nil_r. simpl. repeat split; auto.
  - unfold Session.onClose.
    assert (F : announced (pollFile 0 s)).
    { unfold Session.pollFile.
      destruct (negb (fileExists cwd tempFilePath s) && (0 <? maxAttempts)%nat);
        [exact A|].
      unfold Session.finishClose, fileExists; simpl.
      destruct (Fs.existsSync cwd (files s) tempFilePath);
        eapply (announced_append s _ [_]); simpl; eauto. }
    assert (G : forall msg, announced
              (resEnd (removeTemp cwd tempFilePath (send (EvError msg) s)))).
    { intros msg. unfold removeTemp, fileExists.
      destruct (Fs.existsSync cwd _ tempFilePath);
        eapply (announced_append s _ [_]); simpl; eauto. }
    assert (C : forall x, announced x -> announced (clearMergeInterval x)).
    { intros x (Ax & Mx & Bx). repeat split; auto. discriminate. }
    destruct code as [[|[]|]|]; apply C; first [exact F | apply G].
  - unfold onPollTimer. destruct (polling s); [|exact A].
    unfold Session.pollFile.
    destruct (negb (fileExists cwd tempFilePath s) && (S n <? maxAttempts)%nat);
      [exact A|].
    unfold Session.finishClose, fileExists; simpl.
    destruct (Fs.existsSync cwd (files s) tempFilePath);
      eapply (announced_append s _ [_]); simpl; eauto.
  - unfold onProcError, removeTemp, fileExists.
    destruct (Fs.existsSync cwd _ tempFilePath);
      eapply (announced_append s _ [_]); simpl; eauto.
  - unfold Session.onReqClose, fileExists; simpl.
    destruct (negb (downloadSuccess s) && Fs.existsSync cwd (files s) tempFilePath);
      exact A.
  - exact A.
  - exact A.
Qed.

(** X14. However often the subprocess mentions the merger, and on whichever
    of its two streams, the merge is announced at most once, exactly
    when the handler has noted the merge; and the repeated "still
    merging" events are sent only in a download that has been
    announced as merging. *)
Theorem merging_announced_once (files0 : gset string) (cs : list callback) :
  let s := run (start files0) cs in
  announcements s = (if isMerging s then 1 else 0)%nat
  /\ existsb isHeartbeat (sent s) && negb (isMerging s) = false.
Proof.
  intros s.
  assert (A : announced s).
  { subst s. unfold Session.run.
    assert (A0 : announced (start files0)) by (repeat split; discriminate).
    revert A0. generalize (start files0).
    induction cs as [|c cs IH]; intros s0 A0; simpl; [exact A0|].
    apply IH, step_announced, A0. }
  destruct A as (A & _ & B). split; [exact A|].
  destruct (existsb isHeartbeat (sent s)); [|reflexivity].
  now rewrite B.
Qed.

(** *** What each callback leaves alone *)

Ltac split_ifs :=
  repeat match goal with
    | |- context [if ?b then _ else _] => destruct b eqn:?; simpl
    | |- context [match polling ?s with _ => _ end] => destruct (polling s) eqn:?; simpl
    end.

Ltac unfold_step :=
  unfold onStdout, onStderr, onMergeTimer, Session.onClose, onPollTimer,
    onProcError, Session.onReqClose, Session.pollFile, Session.finishClose,
    detectMerging, detectError, removeTemp, fileExists, clearMergeInterval,
    resEnd, setPolling, setFiles, send; simpl.

Definition isReqClose (c : callback) : bool :=
  match c with
  | ReqClose => true
  | _ => false
  end.

Lemma step_killed s c : killed (step s c) = killed s || isReqClose c.
Proof.
  destruct c as [o|o| |code| |m| | |]; simpl.
  - unfold onStdout. parser_frame o (detectMerging o s). unfold_step.
    split_ifs; now rewrite orb_false_r.
  - unfold onStderr. parser_frame o (detectMerging o (detectError o s)). unfold_step.
    split_ifs; now rewrite orb_false_r.
  - unfold_step. split_ifs; now rewrite orb_false_r.
  - unfold_step. destruct code as [[|[]|]|]; simpl; split_ifs; now rewrite orb_false_r.
  - unfold_step. split_ifs; now rewrite orb_false_r.
  - unfold_step. split_ifs; now rewrite orb_false_r.
  - unfold_step. split_ifs; now rewrite orb_true_r.
  - now rewrite orb_false_r.
  - now rewrite orb_false_r.
Qed.

(** X15. The handler itself never stops the subprocess: it is sent the kill
    signal when, and only when, the request has been closed; neither an
    error marker in its output nor an [error] event sent to the client
    stops it. *)
Theorem killed_only_on_disconnect (files0 : gset string) (cs : list callback) :
  killed (run (start files0) cs) = existsb isReqClose cs.
Proof.
  unfold Session.run.
  assert (G : forall s, killed (fold_left step cs s) = killed s || existsb isReqClose cs).
  { induction cs as [|c cs IH]; intros s; simpl; [now rewrite orb_false_r|].
    now rewrite IH, step_killed, orb_assoc. }
  now rewrite G.
Qed.

(** *** The exit with a failure *)

Definition exitMessage (code : option Z) : string :=
  match code with
  | Some 1%Z =>
      "Download failed during merge. The file may be too large or storage is insufficient."
  | _ => "Download failed with error code: " ++ codeText code
  end.

(** X16. When the subprocess exits with a code other than 0 (or by a
    signal), in whatever state the session is: one [error] event is
    sent, whose message depends on the code alone (code 1 is reported
    as a failed merge whether or not a merge had begun), the staging
    file is gone, the merge timer is cleared and the response is
    ended. *)
Theorem failed_exit_cleans_up (s : session) (code : option Z) :
  code <> Some 0%Z ->
  let s' := onClose code s in
  sent s' = (sent s ++ [EvError (exitMessage code)])%list
  /\ Fs.existsSync cwd (files s') tempFilePath = false
  /\ ended s' = true /\ mergeInterval s' = false
  /\ downloadSuccess s' = downloadSuccess s.
Proof.
  intros Hc.
  assert (G : forall msg,
            let s' := clearMergeInterval
                        (resEnd (removeTemp cwd tempFilePath (send (EvError msg) s))) in
            sent s' = (sent s ++ [EvError msg])%list
            /\ Fs.existsSync cwd (files s') tempFilePath = false
            /\ ended s' = true /\ mergeInterval s' = false
            /\ downloadSuccess s' = downloadSuccess s).
  { intros msg. unfold removeTemp, fileExists; simpl.
    destruct (Fs.existsSync cwd (files s) tempFilePath) eqn:E; simpl; repeat split; auto.
    unfold Fs.existsSync, Fs.unlink. apply bool_decide_eq_false. set_solver. }
  unfold Session.onClose, exitMessage.
  destruct code as [[|[]|]|]; try apply G. congruence.
Qed.

(** *** The wait for the output file *)

Definition isPollTimer (c : callback) : bool :=
  match c with
  | PollTimer => true
  | _ => false
  end.

Definition polls (cs : list callback) : nat := length (List.filter isPollTimer cs).

(** The exit handler has finished. *)
Definition settled (s : session) : Prop :=
  polling s = None /\ ended s = true /\ mergeInterval s = false.

Lemma step_settled s c :
  afterClose c = true -> settled s -> settled (step s c) /\ sent (step s c) = sent s.
Proof.
  intros Hc (P & E & M).
  destruct c as [o|o| |code| |m| | |]; simpl; try discriminate Hc; unfold settled.
  - unfold onMergeTimer. rewrite M. auto.
  - unfold onPollTimer. rewrite P. auto.
  - unfold_step. split_ifs; auto.
  - auto.
  - auto.
Qed.

Lemma run_settled cs : forall s,
  forallb afterClose cs = true -> settled s -> settled (run s cs).
Proof.
  unfold Session.run.
  induction cs as [|c cs IH]; intros s H S; simpl; [exact S|].
  simpl in H. apply andb_prop in H. destruct H as [Hc Hcs].
  apply IH; [exact Hcs|]. now apply step_settled.
Qed.

Lemma finishClose_settled s : mergeInterval s = false -> settled (finishClose s).
Proof. intros M. unfold_step. split_ifs; repeat split; auto. Qed.

Lemma run_polling cs : forall s a,
  polling s = Some a -> (a < maxAttempts)%nat -> mergeInterval s = false ->
  forallb afterClose cs = true -> (maxAttempts <= polls cs + a)%nat ->
  settled (run s cs).
Proof.
  unfold Session.run, polls.
  induction cs as [|c cs IH]; intros s a P A M H N; simpl in *; [lia|].
  apply andb_prop in H. destruct H as [Hc Hcs].
  destruct c as [o|o| |code| |m| | |]; simpl in *; try discriminate Hc.
  - unfold onMergeTimer. rewrite M. now apply (IH s a).
  - unfold onPollTimer. rewrite P. unfold Session.pollFile.
    destruct (negb (fileExists cwd tempFilePath s) && (S a <? maxAttempts)%nat) eqn:E.
    + apply andb_prop in E. destruct E as [_ E]. apply Nat.ltb_lt in E.
      apply (IH _ (S a)); auto. lia.
    + apply run_settled; [exact Hcs|]. now apply finishClose_settled.
  - apply (IH _ a); auto; unfold_step; split_ifs; auto.
  - apply (IH _ a); auto.
  - apply (IH _ a); auto.
Qed.

(** X17. After an exit with code 0 the handler looks for the output file at
    most 51 times: once 50 of its poll timers have fired, whatever the
    request and the file system did in between, it has sent its one
    final event, [complete] or [error], and ended the response. *)
Theorem poll_ends (files0 : gset string) (pre post : list callback) :
  existsb isClose pre = false ->
  forallb afterClose post = true ->
  (maxAttempts <= polls post)%nat ->
  let s := run (start files0) pre in
  let s' := run (start files0) (pre ++ ProcClose (Some 0%Z) :: post)%list in
  ended s' = true /\ polling s' = None
  /\ exists e, sent s' = (sent s ++ [e])%list /\ isTerminal e = true.
Proof.
  intros Hpre Hpost N s s'.
  assert (P : preClose s) by (apply run_preClose; [exact Hpre | now split]).
  assert (E : s' = run (onClose (Some 0%Z) s) post).
  { subst s' s. unfold Session.run. now rewrite fold_left_app. }
  assert (C : closed (sent s) s').
  { rewrite E. apply run_closed; [exact Hpost|]. apply onClose_closed, P. }
  assert (S : settled s').
  { rewrite E. unfold Session.onClose, Session.pollFile.
    destruct (negb (fileExists cwd tempFilePath s) && (0 <? maxAttempts)%nat) eqn:B.
    - apply (run_polling post _ 0%nat); auto; [unfold maxAttempts; lia | lia].
    - apply run_settled; [exact Hpost|].
      destruct (finishClose_settled (clearMergeInterval s) eq_refl) as (S1 & S2 & S3).
      unfold_step. unfold_step. split_ifs; repeat split; auto. }
  destruct S as (Sp & Se & _). split; [exact Se|]. split; [exact Sp|].
  destruct C as [_ [[[a Ha] _] | (_ & e & Hs & Ht)]]; [congruence|].
  now exists e.
Qed.

(** *** The complete event *)

Definition completeEvent : sse :=
  EvComplete downloadId filename tempFilePath
    "Download complete! Starting browser download...".

Definition completes (s : session) : Prop :=
  Forall (fun e => isComplete e = true -> e = completeEvent) (sent s)
  /\ (hasComplete s = true -> ended s = true).

Lemma completes_append s s' es :
  sent s' = (sent s ++ es)%list -> existsb isComplete es = false ->
  (ended s = true -> ended s' = true) ->
  completes s -> completes s'.
Proof.
  unfold completes, hasComplete. intros -> H He [F E]. split.
  - apply Forall_app. split; [exact F|].
    apply List.Forall_forall. intros e Hin Hc.
    assert (X : existsb isComplete es = true) by (apply existsb_exists; eauto).
    congruence.
  - rewrite existsb_app, H, orb_false_r. auto.
Qed.

Lemma finishClose_completes s : completes s -> completes (finishClose s).
Proof.
  intros [F E]. unfold Session.finishClose, fileExists; simpl.
  destruct (Fs.existsSync cwd (files s) tempFilePath).
  - unfold completes, hasComplete; simpl. split; [|reflexivity].
    apply Forall_app. split; [exact F|]. repeat constructor.
  - eapply (completes_append s _ [_]); simpl; eauto. now split.
Qed.

Lemma step_completes s c : completes s -> completes (step s c).
Proof.
  intros K. destruct c as [o|o| |code| |m| | |]; simpl.
  - unfold onStdout. parser_frame o (detectMerging o s).
    assert (Hc : existsb isComplete es = false).
    { clear - Hes. induction es as [|e es IH]; simpl in *; [reflexivity|].
      apply andb_prop in Hes. destruct Hes as [H1 H2].
      destruct e; try discriminate H1. now apply IH. }
    eapply (completes_append (detectMerging o s)); simpl; eauto.
    unfold detectMerging. split_ifs; try exact K.
    eapply (completes_append s _ [_]); simpl; eauto.
  - unfold onStderr. parser_frame o (detectMerging o (detectError o s)).
    assert (Hc : existsb isComplete es = false).
    { clear - Hes. induction es as [|e es IH]; simpl in *; [reflexivity|].
      apply andb_prop in Hes. destruct Hes as [H1 H2].
      destruct e; try discriminate H1. now apply IH. }
    eapply (completes_append (detectMerging o (detectError o s))); simpl; eauto.
    assert (K1 : completes (detectError o s)).
    { unfold detectError. split_ifs; try exact K.
      eapply (completes_append s _ [_]); simpl; eauto. }
    unfold detectMerging. split_ifs; try exact K1.
    eapply (completes_append (detectError o s) _ [_]); simpl; eauto.
  - unfold onMergeTimer. split_ifs; try exact K.
    eapply (completes_append s _ [_]); simpl; eauto.
  - unfold Session.onClose.
    assert (C : forall x, completes x -> completes (clearMergeInterval x)).
    { intros x [Fx Ex]. now split. }
    assert (G : forall msg, completes
              (resEnd (removeTemp cwd tempFilePath (send (EvError msg) s)))).
    { intros msg. unfold removeTemp, fileExists.
      destruct (Fs.existsSync cwd _ tempFilePath);
        eapply (completes_append s _ [_]); simpl; eauto. }
    destruct code as [[|[]|]|]; apply C; try apply G.
    unfold Session.pollFile. split_ifs; [exact K | now apply finishClose_completes].
  - unfold onPollTimer. destruct (polling s); [|exact K].
    unfold Session.pollFile. split_ifs; [exact K | now apply finishClose_completes].
  - unfold onProcError, removeTemp, fileExists.
    destruct (Fs.existsSync cwd _ tempFilePath);
      eapply (completes_append s _ [_]); simpl; eauto.
  - unfold Session.onReqClose, fileExists; simpl. split_ifs; exact K.
  - exact K.
  - exact K.
Qed.

(** X18. A [complete] event always names the staging path and the file name
    of this download, and the response has been ended once it is
    sent. *)
Theorem complete_event_payload (files0 : gset string) (cs : list callback) (e : sse) :
  let s := run (start files0) cs in
  In e (sent s) -> isComplete e = true ->
  e = completeEvent /\ ended s = true /\ downloadSuccess s = true.
Proof.
  intros s Hin Hc.
  assert (K : completes s).
  { clear Hin Hc. subst s. unfold Session.run.
    assert (K0 : completes (start files0)).
    { split; [|unfold hasComplete; simpl; discriminate].
      simpl. repeat (apply List.Forall_cons; [simpl; discriminate|]).
      apply List.Forall_nil. }
    revert K0. generalize (start files0).
    induction cs as [|c cs IH]; intros s0 K0; simpl; [exact K0|].
    apply IH, step_completes, K0. }
  destruct K as [F E].
  assert (H : hasComplete s = true) by (apply existsb_exists; eauto).
  split; [|split].
  - rewrite List.Forall_forall in F. now apply F.
  - now apply E.
  - assert (R : recorded s) by (apply run_recorded; reflexivity).
    unfold recorded in R. now rewrite R.
Qed.

End Handler.

Lemma failed_exit_cleans_up_witness :
  let s := Session.start "1" {[ "/app/downloads/1_v.mp4" ]} in
  let s' := Session.onClose "/app" "/app/downloads/1_v.mp4" "v.mp4" "1" None s in
  sent s' = (sent s ++ [EvError "Download failed with error code: null"])%list
  /\ Fs.existsSync "/app" (files s') "/app/downloads/1_v.mp4" = false
  /\ ended s' = true /\ mergeInterval s' = false
  /\ downloadSuccess s' = downloadSuccess s.
Proof.
  apply (failed_exit_cleans_up "/app" "/app/downloads/1_v.mp4" "v.mp4" "1"
           (Session.start "1" {[ "/app/downloads/1_v.mp4" ]}) None).
  discriminate.
Defined.

Lemma poll_ends_witness :
  let run := Session.run "/app" "/app/downloads/1_v.mp4" "v.mp4" "1" in
  let s := run (Session.start "1" ∅) [] in
  let s' := run (Session.start "1" ∅)
              ([] ++ ProcClose (Some 0%Z) :: repeat PollTimer 50)%list in
  ended s' = true /\ polling s' = None
  /\ exists e, sent s' = (sent s ++ [e])%list /\ isTerminal e = true.
Proof.
  apply (poll_ends "/app" "/app/downloads/1_v.mp4" "v.mp4" "1" ∅ []
           (repeat PollTimer 50)); vm_compute; reflexivity.
Defined.

Lemma complete_event_payload_witness :
  let s := Session.run "/app" "/app/downloads/1_v.mp4" "v.mp4" "1"
             (Session.start "1" {[ "/app/downloads/1_v.mp4" ]})
             [ProcClose (Some 0%Z)] in
  EvComplete "1" "v.mp4" "/app/downloads/1_v.mp4"
    "Download complete! Starting browser download..."
    = completeEvent "/app/downloads/1_v.mp4" "v.mp4" "1"
  /\ ended s = true /\ downloadSuccess s = true.
Proof.
  apply (complete_event_payload "/app" "/app/downloads/1_v.mp4" "v.mp4" "1"
           {[ "/app/downloads/1_v.mp4" ]} [ProcClose (Some 0%Z)]).
  - right. right. left. reflexivity.
  - reflexivity.
Defined.

End SessionMore.

(** ** More on the cleanup of the merged file *)

Module StreamDownloadMore.
Import StreamDownload.

Section Cleanup.
Variable cwd : string.
Variable tempFilePath : string.

Local Abbreviation step := (StreamDownload.step cwd tempFilePath).
Local Abbreviation run := (StreamDownload.run cwd tempFilePath).

Lemma run_finished cbs : forall c,
  cleanupDone c = true -> waiting c = 0%nat -> run c cbs = c.
Proof.
  unfold StreamDownload.run.
  induction cbs as [|cb cbs IH]; intros c D W; simpl; [reflexivity|].
  assert (E : step c cb = c).
  { destruct cb as [t|ok]; simpl.
    - unfold cleanup. now rewrite D.
    - unfold resume. now rewrite W. }
  rewrite E. now apply IH.
Qed.

(** X19. The merged file gets one attempt: when the unlink of the first
    invocation fails, nothing that happens afterwards removes the file
    or tries again; the file stays in the downloads directory. *)
Theorem failed_unlink_is_final (files0 : gset string) (t : trigger)
    (cbs : list callback) :
  let c := run (fresh files0) (Trigger t :: Timer false :: cbs) in
  files c = files0 /\ (unlinks c <= 1)%nat
  /\ c = run (fresh files0) [Trigger t; Timer false].
Proof.
  intros c.
  assert (E : c = run (fresh files0) [Trigger t; Timer false]).
  { subst c. unfold StreamDownload.run; simpl.
    apply (run_finished cbs); reflexivity. }
  rewrite E. unfold StreamDownload.run; simpl.
  rewrite andb_false_r.
  destruct (Fs.existsSync cwd files0 tempFilePath); repeat split; auto.
Qed.

End Cleanup.

End StreamDownloadMore.

(** ** More on the download-file handler *)

Module DownloadFileMore.
Import JsString Negotiation DownloadFile DownloadFileFacts.

(** *** Absolute and relative paths *)

(** A segment that is kept: not empty and not starting with a slash. *)
Definition kept_segment (seg : string) : Prop :=
  seg <> "" /\ startsWith seg "/" = false.

Lemma startsWith_slash c x : startsWith (String c x) "/" = Ascii.eqb c "/"%char.
Proof. destruct c as [[] [] [] [] [] [] [] []]; destruct x; reflexivity. Qed.

Lemma split_no_slash s :
  Forall (fun seg => startsWith seg "/" = false) (Path.split s).
Proof.
  induction s as [|c s IH]; simpl.
  - repeat constructor.
  - destruct (Ascii.eqb c "/"%char) eqn:E.
    + constructor; [reflexivity | exact IH].
    + destruct (Path.split s) as [|seg segs]; constructor; try constructor.
      * now rewrite startsWith_slash.
      * now rewrite startsWith_slash.
      * now inversion IH.
Qed.

Lemma normalizeSegments_kept above segs : forall acc,
  Forall kept_segment acc ->
  Forall (fun seg => startsWith seg "/" = false) segs ->
  Forall kept_segment (Path.normalizeSegments above acc segs).
Proof.
  induction segs as [|seg rest IH]; intros acc Ha Hs; simpl.
  - now apply List.Forall_rev.
  - inversion Hs as [|? ? Hseg Hrest]; subst.
    assert (Hdots : kept_segment "..") by (split; [discriminate | reflexivity]).
    destruct (String.eqb seg "" || String.eqb seg ".") eqn:E1; [now apply IH|].
    destruct (String.eqb seg "..") eqn:E2.
    + apply String.eqb_eq in E2. subst seg.
      destruct acc as [|last acc'].
      * apply IH; [|exact Hrest].
        destruct above; [constructor; [exact Hdots|] |]; constructor.
      * inversion Ha; subst.
        destruct (String.eqb last "..").
        -- apply IH; [|exact Hrest]. destruct above; [constructor|]; assumption.
        -- now apply IH.
    + apply IH; [|exact Hrest]. constructor; [|exact Ha].
      split; [|exact Hseg]. intros ->. discriminate E1.
Qed.

Lemma unsplit_head l :
  Forall kept_segment l -> startsWith (Path.unsplit l) "/" = false.
Proof.
  intros H. destruct l as [|seg rest]; [reflexivity|].
  inversion H as [|? ? [Hne Hs] _]; subst.
  destruct seg as [|c seg]; [contradiction|].
  rewrite startsWith_slash in Hs.
  destruct rest; cbn [Path.unsplit String.append]; now rewrite startsWith_slash.
Qed.

(** The normal form of a relative path is relative. *)
Lemma normalize_relative p :
  startsWith p "/" = false -> startsWith (Path.normalize p) "/" = false.
Proof.
  intros R. unfold Path.normalize. rewrite R.
  destruct (String.eqb p ""); [reflexivity|]. simpl negb.
  pose proof (unsplit_head (Path.normalizeSegments true [] (Path.split p))
                (normalizeSegments_kept true _ [] (List.Forall_nil _) (split_no_slash p))) as H.
  destruct (Path.unsplit (Path.normalizeSegments true [] (Path.split p))) as [|c r].
  - simpl. now destruct (endsWith p "/").
  - destruct (String.eqb (String c r) ""); [now destruct (endsWith p "/")|].
    rewrite startsWith_slash in H.
    destruct (endsWith p "/"); cbn [String.append]; now rewrite startsWith_slash.
Qed.

(** The normal form of an absolute path is absolute. *)
Lemma normalize_absolute p :
  startsWith p "/" = true -> startsWith (Path.normalize p) "/" = true.
Proof.
  intros A. unfold Path.normalize. rewrite A.
  destruct (String.eqb p "") eqn:E.
  - apply String.eqb_eq in E. subst p. discriminate A.
  - clear E. simpl negb.
    set (q := Path.unsplit (Path.normalizeSegments false [] (Path.split p))).
    destruct (String.eqb q ""); [reflexivity|].
    destruct (endsWith p "/"); cbn [String.append]; now rewrite startsWith_slash.
Qed.

Lemma DOWNLOADS_DIR_absolute cwd :
  startsWith cwd "/" = true -> startsWith (DOWNLOADS_DIR cwd) "/" = true.
Proof.
  intros A. unfold DOWNLOADS_DIR, Path.join.
  destruct cwd as [|c cwd]; [discriminate|].
  rewrite startsWith_slash in A.
  change (String.eqb (String c cwd) "") with false.
  change (String.eqb "downloads" "") with false. cbv iota.
  change (String.eqb (String c cwd ++ "/" ++ "downloads") "") with false. cbv iota.
  apply normalize_absolute. cbn [String.append]. now rewrite startsWith_slash.
Qed.

Lemma startsWith_first x d :
  startsWith x d = true -> startsWith d "/" = true -> startsWith x "/" = true.
Proof.
  destruct d as [|a d]; [discriminate|]. destruct x as [|b x]; [discriminate|].
  intros H1 H2. rewrite startsWith_slash in H2. rewrite startsWith_slash.
  cbn [startsWith] in H1. destruct (Ascii.eqb a b) eqn:E; [|discriminate].
  apply Ascii.eqb_eq in E. now subst b.
Qed.

(** X20. With an absolute working directory, the file the handler opens
    is the normal form of the requested path, and that path begins with
    the path of the downloads directory: a relative path is never
    served, and whatever [.] and [..] segments the request contains,
    they are resolved before the prefix is compared. *)
Theorem served_file_has_prefix (cwd method : string) (filePath filename : queryValue)
    (dirExists : bool) (files : gset string) (file contentType name : string) :
  startsWith cwd "/" = true ->
  handler cwd method filePath filename dirExists files = Piped file contentType name ->
  exists p, filePath = QStr p /\ startsWith p "/" = true
    /\ file = Path.normalize p /\ file ∈ files
    /\ startsWith file (DOWNLOADS_DIR cwd) = true.
Proof.
  unfold handler. intros A H.
  destruct (String.eqb method "GET"); simpl in H; [|discriminate].
  destruct filePath as [|p|l]; try discriminate.
  destruct (String.eqb p "") eqn:Ep; [discriminate|].
  destruct (startsWith (Path.normalize p) (DOWNLOADS_DIR cwd)) eqn:Es;
    simpl in H; [|discriminate].
  destruct dirExists; simpl in H; [|discriminate].
  destruct (Fs.existsSync cwd files p) eqn:Ee; simpl in H; [|discriminate].
  injection H as <- _ _.
  unfold Fs.existsSync in Ee. apply bool_decide_eq_true in Ee.
  assert (Ap : startsWith p "/" = true).
  { destruct (startsWith p "/") eqn:R; [reflexivity|].
    apply normalize_relative in R.
    pose proof (startsWith_first _ _ Es (DOWNLOADS_DIR_absolute cwd A)) as N.
    congruence. }
  exists p. unfold Path.resolve in *. rewrite Ap in *. repeat split; auto.
Qed.

Lemma served_file_has_prefix_witness :
  exists p, QStr "/app/tmp/../downloads/./1_v.webm" = QStr p /\ startsWith p "/" = true
    /\ "/app/downloads/1_v.webm" = Path.normalize p
    /\ "/app/downloads/1_v.webm" ∈ ({[ "/app/downloads/1_v.webm" ]} : gset string)
    /\ startsWith "/app/downloads/1_v.webm" (DOWNLOADS_DIR "/app") = true.
Proof.
  apply (served_file_has_prefix "/app" "GET" (QStr "/app/tmp/../downloads/./1_v.webm")
           QAbsent true {[ "/app/downloads/1_v.webm" ]}
           "/app/downloads/1_v.webm" "audio/webm" "1_v.webm");
    reflexivity.
Defined.

(** X21. Whenever a file is piped to the response, the request was a GET,
    the normal form of the requested path begins with the downloads
    directory and the file exists; the content type is [audio/webm] for
    a path ending in [.webm] and [video/mp4] for any other. *)
Theorem piped_file_passed_the_checks (cwd method : string) (filePath filename : queryValue)
    (dirExists : bool) (files : gset string) (file contentType name : string) :
  handler cwd method filePath filename dirExists files = Piped file contentType name ->
  method = "GET"
  /\ exists p, filePath = QStr p /\ p <> ""
       /\ startsWith (Path.normalize p) (DOWNLOADS_DIR cwd) = true
       /\ file = Path.resolve cwd p /\ file ∈ files
       /\ contentType = (if endsWith p ".webm" then "audio/webm" else "video/mp4").
Proof.
  unfold handler. intros H.
  destruct (String.eqb method "GET") eqn:Em; simpl in H; [|discriminate].
  apply String.eqb_eq in Em. split; [exact Em|].
  destruct filePath as [|p|l]; try discriminate.
  destruct (String.eqb p "") eqn:Ep; [discriminate|].
  destruct (startsWith (Path.normalize p) (DOWNLOADS_DIR cwd)) eqn:Es;
    simpl in H; [|discriminate].
  destruct dirExists; simpl in H; [|discriminate].
  destruct (Fs.existsSync cwd files p) eqn:Ee; simpl in H; [|discriminate].
  injection H as <- <- _.
  exists p. apply String.eqb_neq in Ep.
  unfold Fs.existsSync in Ee. apply bool_decide_eq_true in Ee.
  repeat split; auto.
Qed.

Lemma piped_file_passed_the_checks_witness :
  "GET" = "GET"
  /\ exists p, QStr "/app/downloads/1_v.webm" = QStr p /\ p <> ""
       /\ startsWith (Path.normalize p) (DOWNLOADS_DIR "/app") = true
       /\ "/app/downloads/1_v.webm" = Path.resolve "/app" p
       /\ "/app/downloads/1_v.webm" ∈ ({[ "/app/downloads/1_v.webm" ]} : gset string)
       /\ "audio/webm" = (if endsWith p ".webm" then "audio/webm" else "video/mp4").
Proof.
  apply (piped_file_passed_the_checks "/app" "GET" (QStr "/app/downloads/1_v.webm")
           (QStr "v.webm") true {[ "/app/downloads/1_v.webm" ]}
           "/app/downloads/1_v.webm" "audio/webm" "v.webm").
  reflexivity.
Defined.

(** *** The cleanup of the served file *)

Section Cleanup.
Variable cwd : string.
Variable filePath : string.
Variable files0 : gset string.

Local Abbreviation step := (DownloadFile.step cwd filePath).
Local Abbreviation run := (DownloadFile.run cwd filePath).

(** X22. Whatever the streams, the response and the request report and
    whichever timers fire, in whatever order: the part of [cleanup]
    behind the guard is entered at most once, the file is unlinked at
    most twice (once, and once more if the first unlink failed), and as
    long as [cleanup] has not been entered no file has been touched. *)
Theorem served_file_cleanup_once (cbs : list callback) :
  let s := run (serving files0) cbs in
  (started s <= 1)%nat /\ (unlinks s <= 2)%nat
  /\ started s = (if cleanupDone s then 1 else 0)%nat
  /\ (if cleanupDone s then True else files s = files0 /\ unlinks s = 0%nat).
Proof.
  intros s.
  assert (K : kept files0 s).
  { subst s. apply run_kept. repeat split; simpl; lia. }
  destruct K as (S & P & F).
  destruct (cleanupDone s); repeat split; auto; lia.
Qed.

End Cleanup.

End DownloadFileMore.

(** ** The size parser of video-info.ts *)

Module VideoInfoFacts.
Import JsString Regex JsNumber VideoInfo RegexFacts RegexMore Binary64Facts ProgressFacts NegotiationMore.

Local Open Scope Q_scope.

Lemma is_kmgt_upper c :
  is_kmgt c = true ->
  upper c = "K"%char \/ upper c = "M"%char \/ upper c = "G"%char \/ upper c = "T"%char.
Proof.
  destruct c as [[] [] [] [] [] [] [] []]; vm_compute; intros H;
    solve [discriminate H | auto].
Qed.

(** What the pattern can capture: the number, and for the unit nothing
    or one of the letters K, M, G, T in either case. *)
Lemma fileSizeRe_captures u m :
  Match true fileSizeRe u [] m ->
  exists numText,
    group 1 m = Some numText /\
    (group 2 m = None \/
     exists c, group 2 m = Some (String c EmptyString) /\ is_kmgt c = true).
Proof.
  unfold fileSizeRe, RPlus. intros M. inv_match;
  eexists; simpl; (split; [reflexivity|]);
  first [left; reflexivity | right; eexists; split; [reflexivity | assumption]].
Qed.

Lemma scaled_size numText unit k :
  multiplier unit == pow2 (10 * Z.of_nat k) ->
  fmul (parseFloat numText) (multiplier unit)
  == parseFloat numText * inject_Z (1024 ^ Z.of_nat k)
  /\ 0 <= fmul (parseFloat numText) (multiplier unit).
Proof.
  intros E. split.
  - rewrite (fmul_pow2_exact _ _ _ (parseFloat_representable numText) E), E.
    rewrite pow2_Z by lia.
    replace (2 ^ (10 * Z.of_nat k))%Z with (1024 ^ Z.of_nat k)%Z; [reflexivity|].
    change 1024%Z with (2 ^ 10)%Z. rewrite <- Z.pow_mul_r by lia. reflexivity.
  - apply round64_nonneg, Qmult_le_0_compat; [apply parseFloat_nonneg|].
    rewrite E. apply Qlt_le_weak, pow2_pos.
Qed.

(** X23. A size text is read as the number it starts its first match with,
    times a power of 1024 chosen by the unit letter alone: 1024 for K,
    up to 1024^4 for T, in either case and whether or not [i] or [B]
    follow, and 1 when no unit letter follows the number. The result is
    never negative. *)
Theorem parseFileSize_binary_units (sizeStr : string) (m : captures) :
  (String.eqb sizeStr "" || String.eqb sizeStr "N/A" || String.eqb sizeStr "~") = false ->
  str_match true fileSizeRe sizeStr = Some m ->
  exists numText, group 1 m = Some numText /\
    0 <= parseFileSize sizeStr /\
    ((group 2 m = None /\ parseFileSize sizeStr == parseFloat numText)
     \/ exists c k,
          group 2 m = Some (String c EmptyString) /\
          nth_error ["K"; "M"; "G"; "T"]%char k = Some (upper c) /\
          parseFileSize sizeStr
            == parseFloat numText * inject_Z (1024 ^ Z.of_nat (S k))).
Proof.
  intros Hs Hm. unfold parseFileSize. rewrite Hs, Hm.
  destruct (str_match_sound _ _ _ _ Hm) as (u & M).
  destruct (fileSizeRe_captures u m M) as (numText & G1 & G2).
  exists numText. rewrite G1. split; [reflexivity|].
  destruct G2 as [G2 | (c & G2 & Hc)]; rewrite G2.
  - destruct (scaled_size numText (toUpperCase "B") 0) as [V N];
      [vm_compute; reflexivity|].
    split; [exact N|]. left. split; [reflexivity|].
    rewrite V. change (inject_Z (1024 ^ Z.of_nat 0)) with 1. ring.
  - change (if String.eqb (String c EmptyString) "" then "B" else String c EmptyString)
      with (String c EmptyString).
    change (toUpperCase (String c EmptyString)) with (String (upper c) EmptyString).
    apply is_kmgt_upper in Hc.
    destruct Hc as [E|[E|[E|E]]]; rewrite E.
    + destruct (scaled_size numText "K" 1) as [V N]; [vm_compute; reflexivity|].
      split; [exact N|]. right. exists c, 0%nat. rewrite E. repeat split. exact V.
    + destruct (scaled_size numText "M" 2) as [V N]; [vm_compute; reflexivity|].
      split; [exact N|]. right. exists c, 1%nat. rewrite E. repeat split. exact V.
    + destruct (scaled_size numText "G" 3) as [V N]; [vm_compute; reflexivity|].
      split; [exact N|]. right. exists c, 2%nat. rewrite E. repeat split. exact V.
    + destruct (scaled_size numText "T" 4) as [V N]; [vm_compute; reflexivity|].
      split; [exact N|]. right. exists c, 3%nat. rewrite E. repeat split. exact V.
Qed.

Lemma parseFileSize_binary_units_witness :
  exists numText, group 1 [(2%nat, "k"); (1%nat, "1.5")] = Some numText /\
    0 <= parseFileSize "1.5 kB" /\
    ((group 2 [(2%nat, "k"); (1%nat, "1.5")] = None
      /\ parseFileSize "1.5 kB" == parseFloat numText)
     \/ exists c k,
          group 2 [(2%nat, "k"); (1%nat, "1.5")] = Some (String c EmptyString) /\
          nth_error ["K"; "M"; "G"; "T"]%char k = Some (upper c) /\
          parseFileSize "1.5 kB"
            == parseFloat numText * inject_Z (1024 ^ Z.of_nat (S k))).
Proof.
  apply (parseFileSize_binary_units "1.5 kB" [(2%nat, "k"); (1%nat, "1.5")]);
    vm_compute; reflexivity.
Defined.

(** X24. A text without a digit, such as the [N/A] of a format list, has
    the size 0. *)
Theorem parseFileSize_without_digit (sizeStr : string) :
  all (fun c => negb (is_digit c)) sizeStr = true ->
  parseFileSize sizeStr = 0.
Proof.
  intros H. unfold parseFileSize.
  destruct (String.eqb sizeStr "" || String.eqb sizeStr "N/A" || String.eqb sizeStr "~");
    [reflexivity|].
  destruct (str_match true fileSizeRe sizeStr) as [m|] eqn:E; [|reflexivity].
  exfalso. apply str_match_located in E.
  destruct E as (pre & u & post & -> & M).
  unfold fileSizeRe in M.
  inversion M as [| |r1 r2 u1 v1 c0 c1 c2 M1 M2| | | | | |]; subst. clear M M2.
  inversion M1 as [| | | | | | | |n r u2 c3 c4 M3]; subst. clear M1.
  inversion M3 as [| |r1 r2 u3 v3 c5 c6 c7 M4 M5| | | | | |]; subst. clear M3 M5.
  unfold RPlus in M4.
  inversion M4 as [| |r1 r2 u4 v4 c8 c9 c10 M6 M7| | | | | |]; subst. clear M4 M7.
  inversion M6 as [|p a c11 Hd| | | | | | |]; subst. clear M6.
  clear - H Hd. induction pre as [|x pre IH]; simpl in H.
  - rewrite Hd in H. discriminate.
  - apply andb_prop in H. destruct H as [_ H]. now apply IH.
Qed.

Lemma parseFileSize_without_digit_witness : parseFileSize "unknown size" = 0.
Proof.
  apply (parseFileSize_without_digit "unknown size"). reflexivity.
Defined.

End VideoInfoFacts.
